(** * MCRecoPart: particle lineage and fiducial path reduction

    A shallow embedding of [larsim/MCSTReco/MCRecoPart.cxx] and the
    properties of its four member functions: [MotherTrackID],
    [AncestorTrackID], [InDetector] and [AddParticles].

    Conventions.
    - C++ [int], [unsigned int] and [size_t] values are integers of [Z]; the
      two conversions of a signed track id that occur in the source are
      written out ([to_uint], [to_size_t]).
    - [double] is the IEEE 754 binary64 type of [SpecFloat]: comparisons are
      [SFltb], multiplication is [SFmul 53 1024], and NaN is a value.
    - the track index, a [std::map], is a [gmap Z Z], [std::set<int>] and
      [std::set<unsigned int>] are [gset Z], the vector base class is a list.
    - A member function that may throw or loop returns an [outcome]. *)

From Stdlib Require Import ZArith List Lia Bool.
From Stdlib Require Import Floats.SpecFloat.
From stdpp Require Import gmap list strings sorting.

Local Open Scope Z_scope.

(** ** Machine integers *)

Definition to_uint (x : Z) : Z := x mod 2 ^ 32.
Definition to_size_t (x : Z) : Z := x mod 2 ^ 64.

(** Modelled from the spec: [MCRecoPart.h], which declares the sentinel, is
    not part of the sources at hand; the spec calls it [INVALID] / [UNSET].
    It is an [unsigned int], taken here as the largest one. *)
Definition kINVALID_UINT : Z := 2 ^ 32 - 1.
Definition kINVALID_INT : Z := 2 ^ 31 - 1.

(** ** Doubles and four-vectors *)

Definition double : Type := spec_float.

(** [x > y] and [x < y] on doubles: false as soon as one side is NaN. *)
Definition dgt (x y : double) : bool := SFltb y x.
Definition dlt (x y : double) : bool := SFltb x y.
Definition dle (x y : double) : bool := SFleb x y.
Definition dmul (x y : double) : double := SFmul 53 1024 x y.

Definition is_nan (x : double) : bool :=
  match x with S754_nan => true | _ => false end.

(** The literal [1.e3]: 1000 = 8796093022208000 * 2^-43. *)
Definition d1e3 : double := S754_finite false 8796093022208000 (-43).

Record TLorentzVector : Type := mkTLorentzVector
  { vX : double; vY : double; vZ : double; vT : double }.

Definition TLorentzVector_zero : TLorentzVector :=
  mkTLorentzVector (S754_zero false) (S754_zero false)
                   (S754_zero false) (S754_zero false).

(** [for(size_t i=0; i<4; ++i) vec[i] *= f], also [operator*=]. *)
Definition scale (f : double) (v : TLorentzVector) : TLorentzVector :=
  mkTLorentzVector (dmul (vX v) f) (dmul (vY v) f) (dmul (vZ v) f) (dmul (vT v) f).

(** ** The input particle, [simb::MCParticle]

    The class belongs to another package; only the accessors that
    [AddParticles] calls are modelled, over the stored trajectory. *)
Module simb.

Inductive Origin_t : Type :=
  kUnknown | kBeamNeutrino | kCosmicRay | kSuperNovaNeutrino | kSingleParticle.

Record MCParticle : Type := mkMCParticle
  { TrackId : Z;                  (* int *)
    PdgCode : Z;                  (* int *)
    Mother : Z;                   (* int *)
    Daughters : list Z;           (* Daughter(0) .. Daughter(NumberDaughters()-1) *)
    Process : string;
    Trajectory : list (TLorentzVector * TLorentzVector) }.

Definition NumberDaughters (p : MCParticle) : nat := length (Daughters p).
Definition Daughter (p : MCParticle) (i : nat) : Z := nth i (Daughters p) 0.
Definition NumberTrajectoryPoints (p : MCParticle) : nat := length (Trajectory p).
Definition Position (p : MCParticle) (i : nat) : TLorentzVector :=
  fst (nth i (Trajectory p) (TLorentzVector_zero, TLorentzVector_zero)).
Definition Momentum (p : MCParticle) (i : nat) : TLorentzVector :=
  snd (nth i (Trajectory p) (TLorentzVector_zero, TLorentzVector_zero)).
Definition EndPosition (p : MCParticle) : TLorentzVector :=
  Position p (NumberTrajectoryPoints p - 1).
Definition EndMomentum (p : MCParticle) : TLorentzVector :=
  Momentum p (NumberTrajectoryPoints p - 1).
Definition Vx (p : MCParticle) (i : nat) : double := vX (Position p i).
Definition Vy (p : MCParticle) (i : nat) : double := vY (Position p i).
Definition Vz (p : MCParticle) (i : nat) : double := vZ (Position p i).

End simb.

(** ** The stored record, [sim::MCMiniPart] *)

(** Modelled from the spec: the class is declared in [MCRecoPart.h], which is
    not part of the sources at hand. The fields are those of the spec's
    ParticleRecord; [_det_path] is optional (absent until [DetPath] is
    called), [_daughters] is a set. *)
Record MCMiniPart : Type := mkMCMiniPart
  { _track_id : Z;                  (* unsigned int *)
    _pdgcode : Z;                   (* int *)
    _mother : Z;                    (* unsigned int *)
    _ancestor : Z;                  (* unsigned int *)
    _daughters : gset Z;            (* std::set<unsigned int> *)
    _process : string;
    _start_vtx : TLorentzVector;
    _start_mom : TLorentzVector;
    _end_vtx : TLorentzVector;
    _end_mom : TLorentzVector;
    _origin : simb.Origin_t;
    _det_path : option (list (TLorentzVector * TLorentzVector)) }.

(** Modelled from the spec: the default constructor [MCMiniPart()] of the
    same header; every id is unset and nothing is stored. *)
Definition MCMiniPart_new : MCMiniPart :=
  {| _track_id := kINVALID_UINT; _pdgcode := kINVALID_INT;
     _mother := kINVALID_UINT; _ancestor := kINVALID_UINT;
     _daughters := ∅; _process := String.EmptyString;
     _start_vtx := TLorentzVector_zero; _start_mom := TLorentzVector_zero;
     _end_vtx := TLorentzVector_zero; _end_mom := TLorentzVector_zero;
     _origin := simb.kUnknown; _det_path := None |}.

(** Modelled from the spec: the accessors and setters of the same header,
    each reading or writing one field; [HasDaughter] is membership in the
    daughter set, [AddDaughter] an insertion, [ScaleStartMom] and
    [ScaleEndMom] scale the four components of a momentum. *)
Definition TrackID (p : MCMiniPart) : Z := _track_id p.
Definition Mother (p : MCMiniPart) : Z := _mother p.
Definition Ancestor (p : MCMiniPart) : Z := _ancestor p.
Definition HasDaughter (p : MCMiniPart) (d : Z) : bool := bool_decide (d ∈ _daughters p).

Definition set_TrackID (v : Z) (p : MCMiniPart) : MCMiniPart :=
  mkMCMiniPart v (_pdgcode p) (_mother p) (_ancestor p) (_daughters p) (_process p)
    (_start_vtx p) (_start_mom p) (_end_vtx p) (_end_mom p) (_origin p) (_det_path p).
Definition set_PdgCode (v : Z) (p : MCMiniPart) : MCMiniPart :=
  mkMCMiniPart (_track_id p) v (_mother p) (_ancestor p) (_daughters p) (_process p)
    (_start_vtx p) (_start_mom p) (_end_vtx p) (_end_mom p) (_origin p) (_det_path p).
Definition set_Mother (v : Z) (p : MCMiniPart) : MCMiniPart :=
  mkMCMiniPart (_track_id p) (_pdgcode p) v (_ancestor p) (_daughters p) (_process p)
    (_start_vtx p) (_start_mom p) (_end_vtx p) (_end_mom p) (_origin p) (_det_path p).
Definition set_Ancestor (v : Z) (p : MCMiniPart) : MCMiniPart :=
  mkMCMiniPart (_track_id p) (_pdgcode p) (_mother p) v (_daughters p) (_process p)
    (_start_vtx p) (_start_mom p) (_end_vtx p) (_end_mom p) (_origin p) (_det_path p).
Definition AddDaughter (d : Z) (p : MCMiniPart) : MCMiniPart :=
  mkMCMiniPart (_track_id p) (_pdgcode p) (_mother p) (_ancestor p) ({[d]} ∪ _daughters p)
    (_process p) (_start_vtx p) (_start_mom p) (_end_vtx p) (_end_mom p) (_origin p)
    (_det_path p).
Definition set_Process (v : string) (p : MCMiniPart) : MCMiniPart :=
  mkMCMiniPart (_track_id p) (_pdgcode p) (_mother p) (_ancestor p) (_daughters p) v
    (_start_vtx p) (_start_mom p) (_end_vtx p) (_end_mom p) (_origin p) (_det_path p).
Definition set_StartVtx (v : TLorentzVector) (p : MCMiniPart) : MCMiniPart :=
  mkMCMiniPart (_track_id p) (_pdgcode p) (_mother p) (_ancestor p) (_daughters p)
    (_process p) v (_start_mom p) (_end_vtx p) (_end_mom p) (_origin p) (_det_path p).
Definition set_StartMom (v : TLorentzVector) (p : MCMiniPart) : MCMiniPart :=
  mkMCMiniPart (_track_id p) (_pdgcode p) (_mother p) (_ancestor p) (_daughters p)
    (_process p) (_start_vtx p) v (_end_vtx p) (_end_mom p) (_origin p) (_det_path p).
Definition set_EndVtx (v : TLorentzVector) (p : MCMiniPart) : MCMiniPart :=
  mkMCMiniPart (_track_id p) (_pdgcode p) (_mother p) (_ancestor p) (_daughters p)
    (_process p) (_start_vtx p) (_start_mom p) v (_end_mom p) (_origin p) (_det_path p).
Definition set_EndMom (v : TLorentzVector) (p : MCMiniPart) : MCMiniPart :=
  mkMCMiniPart (_track_id p) (_pdgcode p) (_mother p) (_ancestor p) (_daughters p)
    (_process p) (_start_vtx p) (_start_mom p) (_end_vtx p) v (_origin p) (_det_path p).
Definition set_Origin (v : simb.Origin_t) (p : MCMiniPart) : MCMiniPart :=
  mkMCMiniPart (_track_id p) (_pdgcode p) (_mother p) (_ancestor p) (_daughters p)
    (_process p) (_start_vtx p) (_start_mom p) (_end_vtx p) (_end_mom p) v (_det_path p).
Definition set_DetPath (v : list (TLorentzVector * TLorentzVector)) (p : MCMiniPart)
  : MCMiniPart :=
  mkMCMiniPart (_track_id p) (_pdgcode p) (_mother p) (_ancestor p) (_daughters p)
    (_process p) (_start_vtx p) (_start_mom p) (_end_vtx p) (_end_mom p) (_origin p)
    (Some v).
Definition ScaleStartMom (f : double) (p : MCMiniPart) : MCMiniPart :=
  set_StartMom (scale f (_start_mom p)) p.
Definition ScaleEndMom (f : double) (p : MCMiniPart) : MCMiniPart :=
  set_EndMom (scale f (_end_mom p)) p.

(** ** The particle list, [sim::MCRecoPart]

    [parts] is the [std::vector<MCMiniPart>] base class. *)
Record MCRecoPart : Type := mkMCRecoPart
  { parts : list MCMiniPart;
    _track_index : gmap Z Z;        (* std::map, track id => position *)
    _pdg_list : gset Z;             (* std::set<int> *)
    _x_min : double; _x_max : double;
    _y_min : double; _y_max : double;
    _z_min : double; _z_max : double }.

Definition size (s : MCRecoPart) : Z := Z.of_nat (length (parts s)).

(** [this->at(i)] for an unsigned [i]: [None] stands for [std::out_of_range]. *)
Definition at_ (s : MCRecoPart) (i : Z) : option MCMiniPart := parts s !! Z.to_nat i.

Definition with_parts (v : list MCMiniPart) (s : MCRecoPart) : MCRecoPart :=
  mkMCRecoPart v (_track_index s) (_pdg_list s)
    (_x_min s) (_x_max s) (_y_min s) (_y_max s) (_z_min s) (_z_max s).
Definition with_track_index (v : gmap Z Z) (s : MCRecoPart) : MCRecoPart :=
  mkMCRecoPart (parts s) v (_pdg_list s)
    (_x_min s) (_x_max s) (_y_min s) (_y_max s) (_z_min s) (_z_max s).

(** Modelled from the spec: [TrackToParticleIndex] is defined in
    [MCRecoPart.h], not part of the sources at hand; it looks the track id up
    in the index and answers the sentinel when there is no entry. *)
Definition TrackToParticleIndex (s : MCRecoPart) (track_id : Z) : Z :=
  match _track_index s !! track_id with
  | Some pos => pos
  | None => kINVALID_UINT
  end.

(** ** [MCRecoPart::InDetector] *)
Definition InDetector (s : MCRecoPart) (x y z : double) : bool :=
  negb (dgt x (_x_max s) || dlt x (_x_min s) ||
        dgt z (_z_max s) || dlt z (_z_min s) ||
        dgt y (_y_max s) || dlt y (_y_min s)).

(** ** [MCRecoPart::MotherTrackID] (a [const] member: a function of the state) *)
Definition MotherTrackID (s : MCRecoPart) (part_index : Z) : Z :=
  if size s <=? part_index then kINVALID_UINT
  else
    match at_ s part_index with
    | None => kINVALID_UINT
    | Some p =>
        let result := Mother p in
        if result =? 0 then TrackID p
        else if negb (TrackToParticleIndex s result =? kINVALID_UINT) then result
        else
          (* Do brute search *)
          let daughter_id := TrackID p in
          match List.find (fun part => HasDaughter part daughter_id) (parts s) with
          | Some part => TrackID part
          | None => result
          end
    end.

(** ** Outcomes of the members that may throw or loop *)
Inductive exn : Type :=
| cet_exception (category message : string)
| std_out_of_range.

Inductive outcome (A : Type) : Type :=
| Returns (a : A) (s : MCRecoPart)
| Throws (e : exn) (s : MCRecoPart)
| OutOfFuel.
Arguments Returns {A} a s.
Arguments Throws {A} e s.
Arguments OutOfFuel {A}.

(** ** [MCRecoPart::AncestorTrackID] *)

(** The inner [for] of the [else] branch: the first particle that has
    [result] as a daughter gives the new [result]. *)
Definition daughter_scan (s : MCRecoPart) (result : Z) : Z :=
  match List.find (fun p => HasDaughter p result) (parts s) with
  | Some p => TrackID p
  | None => result
  end.

(** The [while(1)] loop, at most [fuel] iterations. *)
Fixpoint climb (fuel : nat) (s : MCRecoPart) (result mother_index : Z) : outcome Z :=
  match fuel with
  | O => OutOfFuel
  | S fuel' =>
      if negb (mother_index =? kINVALID_UINT) then
        let new_result := MotherTrackID s mother_index in
        match at_ s mother_index with
        | None => Throws std_out_of_range s
        | Some m =>
            if new_result =? TrackID m then Returns result s
            else climb fuel' s new_result (TrackToParticleIndex s new_result)
        end
      else
        (* Look for a particle that has a daughter = this mother *)
        let old_result := result in
        let result := daughter_scan s result in
        if result =? old_result then Returns result s
        else climb fuel' s result (TrackToParticleIndex s result)
  end.

(** The cache write on the record at [part_index]: [Ancestor(result)]. *)
Definition cache_ancestor (part_index : Z) (result : Z) (s : MCRecoPart) : MCRecoPart :=
  with_parts (alter (set_Ancestor result) (Z.to_nat part_index) (parts s)) s.

Definition AncestorTrackID (fuel : nat) (s : MCRecoPart) (part_index : Z) : outcome Z :=
  if size s <=? part_index then Returns kINVALID_UINT s
  else
    match at_ s part_index with
    | None => Throws std_out_of_range s
    | Some p =>
        if negb (Ancestor p =? kINVALID_UINT) then Returns (Ancestor p) s
        else
          let result := MotherTrackID s part_index in
          if result =? TrackID p then Returns result s
          else if result =? 0 then Returns (TrackID p) s
          else
            match climb fuel s result (TrackToParticleIndex s result) with
            | Returns result s' => Returns result (cache_ancestor part_index result s')
            | Throws e s' => Throws e s'
            | OutOfFuel => OutOfFuel
            end
    end.

(** ** [MCRecoPart::AddParticles] *)

(** [std::set<size_t>]: a strictly ascending list. *)
Fixpoint set_insert (i : nat) (l : list nat) : list nat :=
  match l with
  | [] => [i]
  | j :: l' =>
      if (i <? j)%nat then i :: l
      else if (i =? j)%nat then l
      else j :: set_insert i l'
  end.

(** The trajectory points inside the detector, by index. *)
Definition contained_index (s : MCRecoPart) (mcp : simb.MCParticle) : list nat :=
  fold_left
    (fun det_path_index i =>
       if InDetector s (simb.Vx mcp i) (simb.Vy mcp i) (simb.Vz mcp i)
       then set_insert i det_path_index else det_path_index)
    (seq 0 (simb.NumberTrajectoryPoints mcp)) [].

(** The two padding steps on a non-empty index set. *)
Definition pad_index (npoints : nat) (det_path_index : list nat) : list nat :=
  let det_path_index :=
    if negb (hd 0%nat det_path_index =? 0)%nat
    then set_insert (hd 0%nat det_path_index - 1)%nat det_path_index
    else det_path_index in
  if (1 <? length det_path_index)%nat then
    if (List.last det_path_index 0%nat + 1 <? npoints)%nat
    then set_insert (List.last det_path_index 0%nat + 1)%nat det_path_index
    else det_path_index
  else det_path_index.

(** The index set behind the stored path: [None] when [DetPath] is not called. *)
Definition det_path_index (s : MCRecoPart) (mcp : simb.MCParticle) : option (list nat) :=
  if bool_decide (simb.PdgCode mcp ∈ _pdg_list s) then
    let sel := contained_index s mcp in
    if negb (length sel =? 0)%nat
    then Some (pad_index (simb.NumberTrajectoryPoints mcp) sel)
    else None
  else None.

Definition det_path_of (mcp : simb.MCParticle) (idx : list nat)
  : list (TLorentzVector * TLorentzVector) :=
  map (fun index => (simb.Position mcp index, scale d1e3 (simb.Momentum mcp index))) idx.

(** The record built for one input particle (the body of the first loop
    after the [push_back]). *)
Definition mini_of (s : MCRecoPart) (mcp : simb.MCParticle) (orig : simb.Origin_t)
  : MCMiniPart :=
  let mini_mcp := MCMiniPart_new in
  let mini_mcp :=
    fold_left (fun m i => AddDaughter (to_uint (simb.Daughter mcp i)) m)
              (seq 0 (simb.NumberDaughters mcp)) mini_mcp in
  let mini_mcp := set_TrackID (to_uint (simb.TrackId mcp)) mini_mcp in
  let mini_mcp := set_PdgCode (simb.PdgCode mcp) mini_mcp in
  let mini_mcp := set_Mother (to_uint (simb.Mother mcp)) mini_mcp in
  let mini_mcp := set_Process (simb.Process mcp) mini_mcp in
  let mini_mcp := set_StartVtx (simb.Position mcp 0) mini_mcp in
  let mini_mcp := set_StartMom (simb.Momentum mcp 0) mini_mcp in
  let mini_mcp := set_EndVtx (simb.EndPosition mcp) mini_mcp in
  let mini_mcp := set_EndMom (simb.EndMomentum mcp) mini_mcp in
  let mini_mcp := set_Origin orig mini_mcp in
  let mini_mcp := ScaleStartMom d1e3 mini_mcp in
  let mini_mcp := ScaleEndMom d1e3 mini_mcp in
  match det_path_index s mcp with
  | Some idx => set_DetPath (det_path_of mcp idx) mini_mcp
  | None => mini_mcp
  end.

(** [std::map::insert] and [try_emplace]: an existing key keeps its value. *)
Definition map_insert_new (k v : Z) (m : gmap Z Z) : gmap Z Z :=
  match m !! k with
  | Some _ => m
  | None => <[k := v]> m
  end.

Definition push_back (p : MCMiniPart) (s : MCRecoPart) : MCRecoPart :=
  with_parts (parts s ++ [p]) s.

(** Modelled from the spec: the key type of [_track_index] is declared in
    [MCRecoPart.h], which is not part of the sources at hand. The spec's
    index maps a trackId, the [unsigned int] a record bears and
    [TrackToParticleIndex] is asked with, to a position: the key is an
    [unsigned int], and the [size_t] of the pair built at the insertion is
    narrowed to it. Positions are stored as they are (a collection has fewer
    than 2^32 records). *)
Definition index_key (k : Z) : Z := to_uint k.

(** One turn of the loop over [mcp_v] ([orig_v[i]] goes with [mcp_v[i]]). *)
Definition add_particle (s : MCRecoPart) (mo : simb.MCParticle * simb.Origin_t)
  : MCRecoPart :=
  let s := with_track_index
             (map_insert_new (index_key (to_size_t (simb.TrackId (fst mo))))
                (size s) (_track_index s)) s in
  push_back (mini_of s (fst mo) (snd mo)) s.

(** One turn of the loop over the dropped particles [mcmp_v]. *)
Definition add_dropped (s : MCRecoPart) (mcmp : MCMiniPart) : MCRecoPart :=
  let s := with_track_index (map_insert_new (TrackID mcmp) (size s) (_track_index s)) s in
  push_back mcmp s.

Definition clear (s : MCRecoPart) : MCRecoPart :=
  with_track_index ∅ (with_parts [] s).

Definition AddParticles (s : MCRecoPart) (mcp_v : list simb.MCParticle)
    (orig_v : list simb.Origin_t) (mcmp_v : list MCMiniPart) : outcome unit :=
  if negb (length orig_v =? length mcp_v)%nat then
    Throws (cet_exception "AddParticles" "MCParticle and Origin_t vector size not same!") s
  else
    let s := clear s in
    let s := fold_left add_particle (combine mcp_v orig_v) s in
    let s := fold_left add_dropped mcmp_v s in
    Returns tt s.

(** ** Statements used by the properties *)

(** The closed box, axis by axis, as the interface describes [InDetector]. *)
Definition in_closed_box (s : MCRecoPart) (x y z : double) : Prop :=
  (dle (_x_min s) x = true /\ dle x (_x_max s) = true) /\
  (dle (_y_min s) y = true /\ dle y (_y_max s) = true) /\
  (dle (_z_min s) z = true /\ dle z (_z_max s) = true).

(** No bound of the box is NaN. *)
Definition box_is_numeric (s : MCRecoPart) : Prop :=
  is_nan (_x_min s) = false /\ is_nan (_x_max s) = false /\
  is_nan (_y_min s) = false /\ is_nan (_y_max s) = false /\
  is_nan (_z_min s) = false /\ is_nan (_z_max s) = false.

(** Doubles of small integers, for the examples. *)
Definition d0 : double := S754_zero false.
Definition d5 : double := S754_finite false 5629499534213120 (-50).
Definition d10 : double := S754_finite false 5629499534213120 (-49).
Definition d20 : double := S754_finite false 5629499534213120 (-48).
(** 10.0001 rounded to the nearest double. *)
Definition d10_0001 : double := S754_finite false 5629555829208462 (-49).

(** The box [0,10] x [0,10] x [0,10], species 13 of interest, nothing ingested. *)
Definition box10 : MCRecoPart :=
  mkMCRecoPart [] ∅ {[13]} d0 d10 d0 d10 d0 d10.

(** A [const] member run as a call on the object: the object is handed back
    as it was received. *)
Definition const_call {A : Type} (f : MCRecoPart -> A) (s : MCRecoPart) : outcome A :=
  Returns (f s) s.

(** Two records that agree on every field but the ancestor cache. *)
Definition same_but_ancestor (p q : MCMiniPart) : Prop :=
  _track_id p = _track_id q /\ _pdgcode p = _pdgcode q /\ _mother p = _mother q /\
  _daughters p = _daughters q /\ _process p = _process q /\
  _start_vtx p = _start_vtx q /\ _start_mom p = _start_mom q /\
  _end_vtx p = _end_vtx q /\ _end_mom p = _end_mom q /\
  _origin p = _origin q /\ _det_path p = _det_path q.

(** [s'] is [s] up to the ancestor cache of the record at position [i]. *)
Definition same_but_ancestor_at (i : nat) (s s' : MCRecoPart) : Prop :=
  _track_index s' = _track_index s /\ _pdg_list s' = _pdg_list s /\
  (_x_min s' = _x_min s /\ _x_max s' = _x_max s /\ _y_min s' = _y_min s /\
   _y_max s' = _y_max s /\ _z_min s' = _z_min s /\ _z_max s' = _z_max s) /\
  length (parts s') = length (parts s) /\
  (forall j, j <> i -> parts s' !! j = parts s !! j) /\
  (forall p, parts s !! i = Some p ->
             exists p', parts s' !! i = Some p' /\ same_but_ancestor p p').

(** The record of a dangling-mother search: the first record of the
    collection, in order, that lists [d] as a daughter. *)
Definition first_with_daughter (s : MCRecoPart) (d : Z) (q : MCMiniPart) : Prop :=
  exists i : nat, parts s !! i = Some q /\ HasDaughter q d = true /\
    forall (j : nat) (q' : MCMiniPart),
      (j < i)%nat -> parts s !! j = Some q' -> HasDaughter q' d = false.

Definition no_record_with_daughter (s : MCRecoPart) (d : Z) : Prop :=
  forall q : MCMiniPart, q ∈ parts s -> HasDaughter q d = false.

(** Example data: an input particle and a dropped record without
    trajectory, and the state an ingestion returns. *)
Definition example_particle (tid mother : Z) (ds : list Z) : simb.MCParticle :=
  simb.mkMCParticle tid 13 mother ds "primary" [].
Definition example_dropped (tid mother : Z) (ds : list Z) : MCMiniPart :=
  set_Mother mother (set_TrackID tid (fold_right AddDaughter MCMiniPart_new ds)).
Definition state_of {A : Type} (o : outcome A) (s0 : MCRecoPart) : MCRecoPart :=
  match o with Returns _ s => s | Throws _ s => s | OutOfFuel => s0 end.

(** primary 1 -> 2 -> 3 -> 4 -> 5, ingested in full. *)
Definition chain5 : MCRecoPart :=
  state_of
    (AddParticles box10
       [example_particle 1 0 [2]; example_particle 2 1 [3]; example_particle 3 2 [4];
        example_particle 4 3 [5]; example_particle 5 4 []]
       (repeat simb.kUnknown 5) []) box10.

(** The same chain with the record of particle 3 missing. *)
Definition chain5_without_3 : MCRecoPart :=
  state_of
    (AddParticles box10
       [example_particle 1 0 [2]; example_particle 2 1 [3];
        example_particle 4 3 [5]; example_particle 5 4 []]
       (repeat simb.kUnknown 4) []) box10.

(** The record [rec] sits at position [p] and the index resolves its
    (non-zero) track id to [p]. *)
Definition indexed_record (s : MCRecoPart) (p : Z) (rec : MCMiniPart) : Prop :=
  0 <= p /\ p <> kINVALID_UINT /\ at_ s p = Some rec /\
  TrackID rec <> 0 /\ TrackToParticleIndex s (TrackID rec) = p.

(** A maternal chain [t 0 -> t 1 -> ... -> t n] of which the record of
    [t k], in the middle, was never ingested: every other particle of the
    chain has its record, at position [pos i], and is indexed; the id [t k]
    does not resolve, no record lists its child [t (k+1)] as a daughter (the
    missing record alone would), and the first record that lists [t k] as a
    daughter is that of its mother [t (k-1)]. *)
Record broken_chain (s : MCRecoPart) (n k : nat) (t pos : nat -> Z) : Prop :=
  { bc_middle : (0 < k < n)%nat;
    bc_ids_distinct : forall i j : nat, (i <= n)%nat -> (j <= n)%nat -> t i = t j -> i = j;
    bc_records : forall i : nat, (i <= n)%nat -> i <> k ->
      exists rec : MCMiniPart,
        indexed_record s (pos i) rec /\ TrackID rec = t i /\
        Mother rec = match i with O => 0 | S i' => t i' end;
    bc_missing_id : t k <> 0;
    bc_missing : TrackToParticleIndex s (t k) = kINVALID_UINT;
    bc_orphan : no_record_with_daughter s (t (S k));
    bc_link : exists q : MCMiniPart,
        first_with_daughter s (t k) q /\ TrackID q = t (k - 1)%nat }.

(** One particle, of track id 5, whose mother id is -1. *)
Definition sentinel_mother : MCRecoPart :=
  state_of (AddParticles box10 [example_particle 5 (-1) []] [simb.kUnknown] []) box10.

(** The record at position [i] of an example state. *)
Definition record_at (s : MCRecoPart) (i : nat) : MCMiniPart :=
  nth i (parts s) MCMiniPart_new.

(** The ids and positions of [chain5_without_3] along the chain. *)
Definition example_id (i : nat) : Z := Z.of_nat i + 1.
Definition example_pos (i : nat) : Z :=
  if (i <? 2)%nat then Z.of_nat i else Z.of_nat i - 1.

(** The indices of the trajectory points inside the detector, ascending. *)
Definition inside_points (s : MCRecoPart) (mcp : simb.MCParticle) : list nat :=
  List.filter
    (fun i => InDetector s (simb.Vx mcp i) (simb.Vy mcp i) (simb.Vz mcp i))
    (seq 0 (simb.NumberTrajectoryPoints mcp)).

(** The padded selection, written out: the index before the first selected
    one when that is not 0; the index after the last selected one when it is
    a point of the trajectory and the set, left pad included, holds more
    than one index. *)
Definition left_pad (sel : list nat) : list nat :=
  if (hd 0%nat sel =? 0)%nat then [] else [(hd 0%nat sel - 1)%nat].
Definition right_pad (npoints : nat) (sel : list nat) : list nat :=
  if (1 <? length (left_pad sel ++ sel))%nat &&
     (List.last sel 0%nat + 1 <? npoints)%nat
  then [(List.last sel 0%nat + 1)%nat] else [].
Definition padded (npoints : nat) (sel : list nat) : list nat :=
  left_pad sel ++ sel ++ right_pad npoints sel.

(** A ten-point trajectory of species 13 inside [box10] at the points
    flagged [true]. *)
Definition example_point (inside : bool) : TLorentzVector * TLorentzVector :=
  (mkTLorentzVector (if inside then d5 else d20) d5 d5 d0, TLorentzVector_zero).
Definition example_track (flags : list bool) : simb.MCParticle :=
  simb.mkMCParticle 1 13 0 [] "primary" (map example_point flags).

(** The range of a C++ [int]. *)
Definition is_int (x : Z) : Prop := - 2 ^ 31 <= x < 2 ^ 31.

(** The key under which [AddParticles] indexes an input particle. *)
Definition particle_key (mcp : simb.MCParticle) : Z :=
  index_key (to_size_t (simb.TrackId mcp)).

(** The position of the first occurrence of a key in a list of keys. *)
Fixpoint first_position (k : Z) (keys : list Z) : option nat :=
  match keys with
  | [] => None
  | k' :: keys' => if k =? k' then Some 0%nat else S <$> first_position k keys'
  end.

(** The state [s'] holds the records [recs], ingested under the keys [keys]
    into an object configured as [s0]: the index sends each key to the
    position of its first occurrence, and the configuration is untouched. *)
Definition ingested (s0 s' : MCRecoPart) (keys : list Z) (recs : list MCMiniPart) : Prop :=
  parts s' = recs /\ length keys = length recs /\
  (forall k : Z, _track_index s' !! k = Z.of_nat <$> first_position k keys) /\
  _pdg_list s' = _pdg_list s0 /\
  _x_min s' = _x_min s0 /\ _x_max s' = _x_max s0 /\ _y_min s' = _y_min s0 /\
  _y_max s' = _y_max s0 /\ _z_min s' = _z_min s0 /\ _z_max s' = _z_max s0.

(** An input particle and a dropped record with the same track id. *)
Definition twice_ingested : MCRecoPart :=
  state_of
    (AddParticles box10 [example_particle 1 0 []] [simb.kUnknown]
       [example_dropped 1 0 []]) box10.

(** Two records that name each other as mother, and a child of one of them. *)
Definition mother_cycle : MCRecoPart :=
  state_of
    (AddParticles box10
       [example_particle 1 2 [2]; example_particle 2 1 [1; 3]; example_particle 3 2 []]
       (repeat simb.kUnknown 3) []) box10.

(** ** [MCRecoPart::MCRecoPart] *)

(** The geometry the constructor reads, [geo::Geometry]: the TPCs of the
    detector, each with its bounding box. The classes belong to another
    package; a [geo::TPCGeo] is a box and [BoundingBox()] is that box. *)
Module geo.

Record TPCGeo : Type := mkTPCGeo
  { MinX : double; MaxX : double;
    MinY : double; MaxY : double;
    MinZ : double; MaxZ : double }.

Definition BoundingBox (tpc : TPCGeo) : TPCGeo := tpc.

End geo.

(** [std::min_element(first, last, comp)]: the first smallest element, and
    nothing to dereference on an empty range. *)
Definition min_element {A : Type} (comp : A -> A -> bool) (l : list A) : option A :=
  match l with
  | [] => None
  | x :: l' =>
      Some (fold_left (fun smallest y => if comp y smallest then y else smallest) l' x)
  end.

(** [std::max_element(first, last, comp)]: the first largest element. *)
Definition max_element {A : Type} (comp : A -> A -> bool) (l : list A) : option A :=
  match l with
  | [] => None
  | x :: l' =>
      Some (fold_left (fun largest y => if comp largest y then y else largest) l' x)
  end.

(** The constructor, from the configured [SavePathPDGList] and the TPCs of
    the geometry service; [None] when there is no TPC (an end iterator is
    dereferenced). *)
Definition MCRecoPart_new (SavePathPDGList : list Z) (tpcs : list geo.TPCGeo)
  : option MCRecoPart :=
  let _pdg_list := fold_left (fun acc id => {[id]} ∪ acc) SavePathPDGList (∅ : gset Z) in
  (* Build "Fiducial" Volume Definition *)
  x_min ← min_element (fun lhs rhs => dlt (geo.MinX (geo.BoundingBox lhs))
                                           (geo.MinX (geo.BoundingBox rhs))) tpcs;
  y_min ← min_element (fun lhs rhs => dlt (geo.MinY (geo.BoundingBox lhs))
                                           (geo.MinY (geo.BoundingBox rhs))) tpcs;
  z_min ← min_element (fun lhs rhs => dlt (geo.MinZ (geo.BoundingBox lhs))
                                           (geo.MinZ (geo.BoundingBox rhs))) tpcs;
  x_max ← max_element (fun lhs rhs => dlt (geo.MaxX (geo.BoundingBox lhs))
                                           (geo.MaxX (geo.BoundingBox rhs))) tpcs;
  y_max ← max_element (fun lhs rhs => dlt (geo.MaxY (geo.BoundingBox lhs))
                                           (geo.MaxY (geo.BoundingBox rhs))) tpcs;
  z_max ← max_element (fun lhs rhs => dlt (geo.MaxZ (geo.BoundingBox lhs))
                                           (geo.MaxZ (geo.BoundingBox rhs))) tpcs;
  Some (mkMCRecoPart [] ∅ _pdg_list
          (geo.MinX x_min) (geo.MaxX x_max)
          (geo.MinY y_min) (geo.MaxY y_max)
          (geo.MinZ z_min) (geo.MaxZ z_max)).

(** ** Statements used by the further properties *)

(** The order of the doubles that are numbers, as a lexicographic order on
    integer triples: class and sign first, then exponent, then mantissa. *)
Definition rank (x : double) : Z * Z * Z :=
  match x with
  | S754_nan => (0, 0, 0)
  | S754_zero _ => (0, 0, 0)
  | S754_infinity true => (-2, 0, 0)
  | S754_infinity false => (2, 0, 0)
  | S754_finite true m e => (-1, - e, - Z.pos m)
  | S754_finite false m e => (1, e, Z.pos m)
  end.

Definition lex_lt (a b : Z * Z * Z) : Prop :=
  a.1.1 < b.1.1 \/
  (a.1.1 = b.1.1 /\ (a.1.2 < b.1.2 \/ (a.1.2 = b.1.2 /\ a.2 < b.2))).

Definition lex_le (a b : Z * Z * Z) : Prop := ~ lex_lt b a.

(** A TPC whose six bounds are numbers. *)
Definition tpc_is_numeric (tpc : geo.TPCGeo) : Prop :=
  is_nan (geo.MinX tpc) = false /\ is_nan (geo.MaxX tpc) = false /\
  is_nan (geo.MinY tpc) = false /\ is_nan (geo.MaxY tpc) = false /\
  is_nan (geo.MinZ tpc) = false /\ is_nan (geo.MaxZ tpc) = false.

(** The point lies in the bounding box of the TPC. *)
Definition in_tpc_box (tpc : geo.TPCGeo) (x y z : double) : Prop :=
  (dle (geo.MinX tpc) x = true /\ dle x (geo.MaxX tpc) = true) /\
  (dle (geo.MinY tpc) y = true /\ dle y (geo.MaxY tpc) = true) /\
  (dle (geo.MinZ tpc) z = true /\ dle z (geo.MaxZ tpc) = true).

(** Two TPCs side by side along x: [0,10] and [10,20], both [0,10] in y, z. *)
Definition example_tpcs : list geo.TPCGeo :=
  [geo.mkTPCGeo d0 d10 d0 d10 d0 d10; geo.mkTPCGeo d10 d20 d0 d10 d0 d10].

(** The record at position [p] descends from the primary of track id
    [root] through [n] indexed mothers. *)
Inductive lineage (s : MCRecoPart) : Z -> Z -> nat -> Prop :=
| lineage_primary (p : Z) (rec : MCMiniPart) :
    indexed_record s p rec -> Mother rec = 0 ->
    lineage s p (TrackID rec) 0
| lineage_child (p pm : Z) (rec rm : MCMiniPart) (root : Z) (n : nat) :
    indexed_record s p rec -> indexed_record s pm rm ->
    Mother rec = TrackID rm -> lineage s pm root n ->
    lineage s p root (S n).

(** Every position the index holds is a position of the collection. *)
Definition index_in_range (s : MCRecoPart) : Prop :=
  forall k p : Z, _track_index s !! k = Some p -> 0 <= p < size s.

(** Every entry of the index leads to a record that bears the indexed id. *)
Definition index_sound (s : MCRecoPart) : Prop :=
  forall k p : Z, _track_index s !! k = Some p ->
    exists rec : MCMiniPart, at_ s p = Some rec /\ TrackID rec = k.

(** The ids at which the climb stops: an id the index resolves to a record
    that [MotherTrackID] calls its own mother, or an id the index does not
    resolve and the linear search does not replace. *)
Definition climb_top_id (s : MCRecoPart) (r : Z) : Prop :=
  (TrackToParticleIndex s r <> kINVALID_UINT /\
   exists m : MCMiniPart,
     at_ s (TrackToParticleIndex s r) = Some m /\
     MotherTrackID s (TrackToParticleIndex s r) = TrackID m) \/
  (TrackToParticleIndex s r = kINVALID_UINT /\ daughter_scan s r = r).

(** The trajectory point of index [i] is inside the detector. *)
Definition point_inside (s : MCRecoPart) (mcp : simb.MCParticle) (i : nat) : Prop :=
  InDetector s (simb.Vx mcp i) (simb.Vy mcp i) (simb.Vz mcp i) = true.

(** A set of positions closed under "mother of": every record of the set
    is indexed and names as mother another indexed record, of another track
    id, that is in the set again. No primary is ever reached from it. *)
Definition mother_closed (s : MCRecoPart) (C : Z -> Prop) : Prop :=
  forall p : Z, C p ->
    exists (rec rm : MCMiniPart) (pm : Z),
      indexed_record s p rec /\ indexed_record s pm rm /\
      Mother rec = TrackID rm /\ TrackID rm <> TrackID rec /\ C pm.

(** * Properties *)

(** ** [InDetector] *)

Lemma SFcompare_antisym (a b : spec_float) :
  SFcompare b a = CompOpp <$> SFcompare a b.
Proof.
  destruct a as [sa|sa| |sa ma ea], b as [sb|sb| |sb mb eb]; simpl; try done;
    try (by destruct sa); try (by destruct sb); try (by destruct sa, sb).
  destruct sa, sb; simpl; try done; f_equal;
    rewrite (Z.compare_antisym ea eb); destruct (ea ?= eb); simpl; try done;
    rewrite (Pos.compare_cont_antisym ma mb Eq); simpl.
  all: try done.
  all: by destruct (Pos.compare_cont Eq ma mb).
Qed.

Lemma SFcompare_numeric (x y : spec_float) :
  is_nan x = false -> is_nan y = false -> is_Some (SFcompare x y).
Proof. destruct x, y; simpl; intros; try done; eauto. Qed.

Lemma dgt_not_dle (x y : double) :
  is_nan x = false -> is_nan y = false -> dgt x y = negb (dle x y).
Proof.
  unfold dgt, dle, SFltb, SFleb. rewrite (SFcompare_antisym x y).
  intros Hx Hy. destruct (SFcompare_numeric x y Hx Hy) as [c ->].
  by destruct c.
Qed.

Lemma dlt_not_dle (x y : double) :
  is_nan x = false -> is_nan y = false -> dlt x y = negb (dle y x).
Proof. intros Hx Hy. apply (dgt_not_dle y x Hy Hx). Qed.

Lemma dle_refl (x : double) : is_nan x = false -> dle x x = true.
Proof.
  unfold dle, SFleb. destruct x as [s|s| |s m e]; simpl; try done; try (by destruct s).
  intros _. destruct s; rewrite Z.compare_refl, Pos.compare_cont_refl; done.
Qed.

Lemma InDetector_unfold (s : MCRecoPart) (x y z : double) :
  InDetector s x y z = true <->
  (dgt x (_x_max s) = false /\ dlt x (_x_min s) = false) /\
  (dgt y (_y_max s) = false /\ dlt y (_y_min s) = false) /\
  (dgt z (_z_max s) = false /\ dlt z (_z_min s) = false).
Proof.
  unfold InDetector. rewrite negb_true_iff, !orb_false_iff. tauto.
Qed.

(** C8, as stated, fails on a NaN coordinate: every comparison with NaN is
    false, so the negated disjunction answers [true] for a point that lies
    in no interval. *)
Lemma InDetector_nan_counterexample :
  InDetector box10 S754_nan d5 d5 = true /\ ~ in_closed_box box10 S754_nan d5 d5.
Proof.
  split; [reflexivity |].
  intros [[H _] _]. vm_compute in H. discriminate H.
Qed.

(** C8 (amended): for coordinates that are numbers, and a box whose bounds
    are numbers, [InDetector] answers [true] exactly when each coordinate
    lies in the closed interval of its axis; a point on the boundary is
    inside and a point strictly beyond a bound is outside. *)
Theorem InDetector_closed_box (s : MCRecoPart) (x y z : double) :
  box_is_numeric s ->
  is_nan x = false -> is_nan y = false -> is_nan z = false ->
  (InDetector s x y z = true <-> in_closed_box s x y z) /\
  (x = _x_max s -> dle (_x_min s) (_x_max s) = true ->
   dle (_y_min s) y = true /\ dle y (_y_max s) = true ->
   dle (_z_min s) z = true /\ dle z (_z_max s) = true ->
   InDetector s x y z = true) /\
  (dgt x (_x_max s) = true \/ dlt x (_x_min s) = true \/
   dgt y (_y_max s) = true \/ dlt y (_y_min s) = true \/
   dgt z (_z_max s) = true \/ dlt z (_z_min s) = true ->
   InDetector s x y z = false).
Proof.
  intros (Hx0 & Hx1 & Hy0 & Hy1 & Hz0 & Hz1) Hx Hy Hz.
  assert (Hiff : forall x', is_nan x' = false ->
            InDetector s x' y z = true <-> in_closed_box s x' y z).
  { intros x' Hx'. rewrite InDetector_unfold. unfold in_closed_box.
    rewrite !dgt_not_dle, !dlt_not_dle, !negb_false_iff by done. tauto. }
  split; [by apply Hiff | split].
  - intros -> Hmin Hyy Hzz. apply Hiff; [done |].
    unfold in_closed_box. rewrite dle_refl by done. destruct Hyy, Hzz. by repeat split.
  - intros H. unfold InDetector. rewrite negb_false_iff, !orb_true_iff. tauto.
Qed.

Lemma InDetector_closed_box_witness :
  InDetector box10 d10 d5 d5 = true /\ InDetector box10 d5 d5 d5 = true /\
  InDetector box10 d10_0001 d5 d5 = false.
Proof.
  assert (Hbox : box_is_numeric box10) by (repeat split; reflexivity).
  split; [| split].
  - apply (proj1 (InDetector_closed_box box10 d10 d5 d5 Hbox eq_refl eq_refl eq_refl)).
    repeat split; reflexivity.
  - apply (proj1 (InDetector_closed_box box10 d5 d5 d5 Hbox eq_refl eq_refl eq_refl)).
    repeat split; reflexivity.
  - apply (proj2 (proj2 (InDetector_closed_box box10 d10_0001 d5 d5 Hbox
                           eq_refl eq_refl eq_refl))).
    left. reflexivity.
Defined.

(** ** Basic facts on the state and the collection *)

Lemma find_first {A : Type} (f : A -> bool) (l : list A) (x : A) :
  List.find f l = Some x ->
  exists i : nat, l !! i = Some x /\ f x = true /\
    forall (j : nat) (y : A), (j < i)%nat -> l !! j = Some y -> f y = false.
Proof.
  induction l as [|a l IH]; simpl; [done |].
  destruct (f a) eqn:Hfa.
  - intros [= ->]. exists 0%nat. repeat split; [done | lia].
  - intros Hfind. destruct (IH Hfind) as (i & Hi & Hfx & Hbefore).
    exists (S i). repeat split; [done.. |].
    intros [|j] y Hj Hy; simpl in Hy; [by inversion Hy; subst |].
    apply (Hbefore j); [lia | done].
Qed.

Lemma find_none_elem {A : Type} (f : A -> bool) (l : list A) :
  List.find f l = None <-> forall x, x ∈ l -> f x = false.
Proof.
  split.
  - intros H x Hx. apply (find_none f l H). by apply list_elem_of_In.
  - induction l as [|a l IH]; simpl; [done |]. intros H.
    rewrite (H a) by left. apply IH. intros x Hx. apply H. by right.
Qed.

Lemma at_lookup (s : MCRecoPart) (p : Z) :
  0 <= p < size s -> is_Some (at_ s p).
Proof.
  intros Hp. apply lookup_lt_is_Some. unfold size in Hp. lia.
Qed.

Lemma at_in_range (s : MCRecoPart) (p : Z) (rec : MCMiniPart) :
  0 <= p -> at_ s p = Some rec -> p < size s.
Proof.
  intros Hp H. apply lookup_lt_Some in H. unfold size. lia.
Qed.

(** ** [AddParticles]: the length check *)

(** C7: with particle and origin vectors of different lengths the call
    throws the [cet::exception] and hands the object back as it was: the
    records and the index ingested before are unchanged. *)
Theorem AddParticles_length_mismatch (s : MCRecoPart) (mcp_v : list simb.MCParticle)
    (orig_v : list simb.Origin_t) (mcmp_v : list MCMiniPart) :
  length orig_v <> length mcp_v ->
  exists e : exn,
    AddParticles s mcp_v orig_v mcmp_v = Throws e s /\
    e = cet_exception "AddParticles" "MCParticle and Origin_t vector size not same!" /\
    forall s' : MCRecoPart,
      AddParticles s mcp_v orig_v mcmp_v = Throws e s' ->
      parts s' = parts s /\ _track_index s' = _track_index s /\
      (forall p, MotherTrackID s' p = MotherTrackID s p) /\
      (forall t, TrackToParticleIndex s' t = TrackToParticleIndex s t).
Proof.
  intros Hlen. eexists. unfold AddParticles.
  destruct (Nat.eqb_spec (length orig_v) (length mcp_v)) as [|_]; [done |].
  simpl. split; [reflexivity | split; [reflexivity |]].
  by intros s' [= <-].
Qed.

Lemma AddParticles_length_mismatch_witness :
  exists e : exn,
    AddParticles chain5 [example_particle 9 0 []] [] [] = Throws e chain5.
Proof.
  destruct (AddParticles_length_mismatch chain5 [example_particle 9 0 []] [] [])
    as (e & He & _); [simpl; lia |].
  exists e. exact He.
Defined.

(** ** [MotherTrackID] *)

(** C4: the sentinel out of range; otherwise, with [m] the record's mother
    id: the record's own track id when [m] is 0; [m] when the index resolves
    it; otherwise the track id of the first record that lists this particle
    as a daughter, and the unresolved [m] when no record does. *)
Theorem MotherTrackID_spec (s : MCRecoPart) (p : Z) :
  0 <= p ->
  (size s <= p -> MotherTrackID s p = kINVALID_UINT) /\
  (p < size s ->
   exists rec : MCMiniPart, at_ s p = Some rec /\
     let m := Mother rec in
     (m = 0 -> MotherTrackID s p = TrackID rec) /\
     (m <> 0 -> TrackToParticleIndex s m <> kINVALID_UINT -> MotherTrackID s p = m) /\
     (m <> 0 -> TrackToParticleIndex s m = kINVALID_UINT ->
      (forall q, q ∈ parts s -> HasDaughter q (TrackID rec) = true ->
         exists q', first_with_daughter s (TrackID rec) q' /\
                    MotherTrackID s p = TrackID q') /\
      (no_record_with_daughter s (TrackID rec) -> MotherTrackID s p = m))).
Proof.
  intros Hp. split.
  - intros Hge. unfold MotherTrackID.
    by destruct (Z.leb_spec (size s) p); [| lia].
  - intros Hlt. destruct (at_lookup s p) as [rec Hrec]; [lia |].
    exists rec. split; [done |]. unfold MotherTrackID.
    destruct (Z.leb_spec (size s) p); [lia |]. rewrite Hrec. simpl.
    split; [| split].
    + intros ->. done.
    + intros Hm Hidx. destruct (Z.eqb_spec (Mother rec) 0); [done |].
      by destruct (Z.eqb_spec (TrackToParticleIndex s (Mother rec)) kINVALID_UINT).
    + intros Hm Hidx. destruct (Z.eqb_spec (Mother rec) 0); [done |].
      rewrite Hidx, Z.eqb_refl. simpl. split.
      * intros q Hq Hd.
        destruct (List.find _ (parts s)) as [q'|] eqn:Hfind.
        -- exists q'. split; [| done]. by apply find_first in Hfind.
        -- rewrite find_none_elem in Hfind. by rewrite (Hfind q Hq) in Hd.
      * intros Hnone. apply find_none_elem in Hnone. by rewrite Hnone.
Qed.

Lemma MotherTrackID_spec_witness :
  MotherTrackID chain5 7 = kINVALID_UINT /\ MotherTrackID chain5_without_3 0 = 1.
Proof.
  split.
  - apply (proj1 (MotherTrackID_spec chain5 7 ltac:(lia))). by vm_compute.
  - destruct (proj2 (MotherTrackID_spec chain5_without_3 0 ltac:(lia)))
      as (rec & Hrec & Hprimary & _); [by vm_compute |].
    vm_compute in Hrec. injection Hrec as <-. by apply Hprimary.
Defined.

(** ** [AncestorTrackID] *)

Lemma climb_state (fuel : nat) (s : MCRecoPart) (result mother_index : Z) :
  match climb fuel s result mother_index with
  | Returns _ s' | Throws _ s' => s' = s
  | OutOfFuel => True
  end.
Proof.
  revert result mother_index. induction fuel as [|fuel IH]; intros result mi; simpl; [done |].
  destruct (negb (mi =? kINVALID_UINT)).
  - destruct (at_ s mi) as [m|]; [| done].
    destruct (MotherTrackID s mi =? TrackID m); [done | apply IH].
  - destruct (daughter_scan s result =? result); [done | apply IH].
Qed.

Lemma climb_Returns_state (fuel : nat) (s s' : MCRecoPart) (result mi r : Z) :
  climb fuel s result mi = Returns r s' -> s' = s.
Proof. intros H. pose proof (climb_state fuel s result mi) as Hs. by rewrite H in Hs. Qed.

(** More fuel does not change an answer. *)
Lemma climb_fuel_mono (fuel fuel' : nat) (s s' : MCRecoPart) (result mi r : Z) :
  (fuel <= fuel')%nat ->
  climb fuel s result mi = Returns r s' -> climb fuel' s result mi = Returns r s'.
Proof.
  revert fuel' result mi. induction fuel as [|fuel IH]; intros fuel' result mi Hle; [done |].
  destruct fuel' as [|fuel']; [lia |]. simpl.
  destruct (negb (mi =? kINVALID_UINT)).
  - destruct (at_ s mi) as [m|]; [| done].
    destruct (MotherTrackID s mi =? TrackID m); [done | apply IH; lia].
  - destruct (daughter_scan s result =? result); [done | apply IH; lia].
Qed.

(** The ways [AncestorTrackID] returns. *)
Lemma AncestorTrackID_Returns (fuel : nat) (s s' : MCRecoPart) (p r : Z) :
  AncestorTrackID fuel s p = Returns r s' ->
  (size s <= p /\ r = kINVALID_UINT /\ s' = s) \/
  (exists rec : MCMiniPart, p < size s /\ at_ s p = Some rec /\
     ((Ancestor rec <> kINVALID_UINT /\ r = Ancestor rec /\ s' = s) \/
      (Ancestor rec = kINVALID_UINT /\
       (MotherTrackID s p = TrackID rec \/ MotherTrackID s p = 0) /\
       r = TrackID rec /\ s' = s) \/
      (Ancestor rec = kINVALID_UINT /\
       MotherTrackID s p <> TrackID rec /\ MotherTrackID s p <> 0 /\
       climb fuel s (MotherTrackID s p)
             (TrackToParticleIndex s (MotherTrackID s p)) = Returns r s /\
       s' = cache_ancestor p r s))).
Proof.
  unfold AncestorTrackID.
  destruct (Z.leb_spec (size s) p) as [Hge|Hlt].
  { intros [= <- <-]. by left. }
  destruct (at_ s p) as [rec|] eqn:Hrec; [| done].
  intros H. right. exists rec. split; [done |]. split; [done |].
  destruct (Z.eqb_spec (Ancestor rec) kINVALID_UINT) as [Hanc|Hanc]; simpl in H.
  2: { injection H as <- <-. by left. }
  right.
  destruct (Z.eqb_spec (MotherTrackID s p) (TrackID rec)) as [Hself|Hself].
  { injection H as <- <-. left. rewrite Hself. auto. }
  destruct (Z.eqb_spec (MotherTrackID s p) 0) as [Hzero|Hzero].
  { injection H as <- <-. left. auto. }
  right.
  destruct (climb fuel s _ _) as [r0 s0| |] eqn:Hclimb; [| done..].
  injection H as <- <-.
  pose proof (climb_Returns_state _ _ _ _ _ _ Hclimb) as ->. auto.
Qed.

Lemma cache_ancestor_at (s : MCRecoPart) (p r : Z) :
  at_ (cache_ancestor p r s) p = set_Ancestor r <$> at_ s p.
Proof. unfold at_, cache_ancestor. simpl. by rewrite list_lookup_alter_eq. Qed.

Lemma cache_ancestor_other (s : MCRecoPart) (p r : Z) (j : nat) :
  j <> Z.to_nat p -> parts (cache_ancestor p r s) !! j = parts s !! j.
Proof. intros Hj. unfold cache_ancestor. simpl. by rewrite list_lookup_alter_ne. Qed.

Lemma cache_ancestor_same (s : MCRecoPart) (p : Z) (rec : MCMiniPart) :
  at_ s p = Some rec -> cache_ancestor p (Ancestor rec) s = s.
Proof.
  intros Hrec. unfold cache_ancestor, with_parts. destruct s as [ps ? ? ? ? ? ? ? ?].
  simpl in *. f_equal. unfold at_ in Hrec. simpl in Hrec.
  apply list_eq. intros j. destruct (decide (j = Z.to_nat p)) as [->|Hj].
  - rewrite list_lookup_alter_eq, Hrec. simpl. f_equal. by destruct rec.
  - by rewrite list_lookup_alter_ne.
Qed.

Lemma cache_ancestor_frame (s : MCRecoPart) (p r : Z) :
  same_but_ancestor_at (Z.to_nat p) s (cache_ancestor p r s).
Proof.
  unfold same_but_ancestor_at, cache_ancestor. simpl.
  split; [done |]. split; [done |]. split; [done |].
  split; [by rewrite length_alter |]. split.
  - intros j Hj. by rewrite list_lookup_alter_ne.
  - intros rec Hrec. exists (set_Ancestor r rec).
    rewrite list_lookup_alter_eq, Hrec. by repeat split.
Qed.

Lemma same_but_ancestor_at_refl (i : nat) (s : MCRecoPart) : same_but_ancestor_at i s s.
Proof.
  unfold same_but_ancestor_at. repeat split; try done.
  intros p Hp. exists p. by repeat split.
Qed.

(** C10: [MotherTrackID] hands the object back as it received it;
    [AncestorTrackID] changes at most the ancestor cache of the record at
    the queried position: the index, the species set, the bounds, the number
    of records, every other record and every other field of that record are
    the same after the call, and nothing at all changes when it throws. *)
Theorem queries_frame :
  (forall (s : MCRecoPart) (p : Z),
     const_call (fun s => MotherTrackID s p) s = Returns (MotherTrackID s p) s) /\
  (forall (fuel : nat) (s : MCRecoPart) (p : Z),
     match AncestorTrackID fuel s p with
     | Returns _ s' => same_but_ancestor_at (Z.to_nat p) s s'
     | Throws _ s' => s' = s
     | OutOfFuel => True
     end).
Proof.
  split; [done |]. intros fuel s p.
  destruct (AncestorTrackID fuel s p) as [r s'|e s'|] eqn:H; [| | done].
  - apply AncestorTrackID_Returns in H
      as [(_ & _ & ->) | (rec & _ & _ & [(_ & _ & ->) | [(_ & _ & _ & ->) | (_ & _ & _ & _ & ->)]])];
      auto using same_but_ancestor_at_refl, cache_ancestor_frame.
  - unfold AncestorTrackID in H.
    destruct (size s <=? p); [done |].
    destruct (at_ s p) as [rec|]; [| by injection H].
    destruct (negb (Ancestor rec =? kINVALID_UINT)); [done |].
    destruct (MotherTrackID s p =? TrackID rec); [done |].
    destruct (MotherTrackID s p =? 0); [done |].
    pose proof (climb_state fuel s (MotherTrackID s p)
                  (TrackToParticleIndex s (MotherTrackID s p))) as Hs.
    destruct (climb fuel s _ _); [done | | done]. by injection H as _ <-.
Qed.

(** C3, as stated, fails for a primary: the call returns the particle's own
    track id before the cache write, so the record's ancestor stays unset. *)
Lemma AncestorTrackID_primary_counterexample :
  AncestorTrackID 4 chain5 0 = Returns 1 chain5 /\
  Mother <$> at_ chain5 0 = Some 0 /\
  Ancestor <$> at_ chain5 0 = Some kINVALID_UINT /\
  kINVALID_UINT <> 1.
Proof. by vm_compute. Qed.

(** C3 (amended): a second call returns the same value and leaves the
    object as the first left it. When the first call went through the climb
    (the cache was unset, and [MotherTrackID] gave neither the particle's own
    track id nor 0), the record's ancestor is the returned value; when that
    value is not the sentinel, the second call answers from the cache
    without a single turn of the loop; when it is the sentinel, the write
    leaves the cache unset, the object is as before, and the second call
    walks the chain again. When [MotherTrackID] gave the particle's own track
    id or 0 (a primary), the first call writes nothing. A cache that is set
    is never changed by a call, whatever the queried position. *)
Theorem AncestorTrackID_idempotent (fuel : nat) (s s' : MCRecoPart) (p r : Z) :
  AncestorTrackID fuel s p = Returns r s' ->
  AncestorTrackID fuel s' p = Returns r s' /\
  (forall rec, at_ s p = Some rec -> p < size s -> Ancestor rec = kINVALID_UINT ->
     MotherTrackID s p <> TrackID rec -> MotherTrackID s p <> 0 ->
     Ancestor <$> at_ s' p = Some r /\
     (r <> kINVALID_UINT -> AncestorTrackID 0 s' p = Returns r s') /\
     (r = kINVALID_UINT -> s' = s /\ AncestorTrackID 0 s' p = OutOfFuel)) /\
  (forall rec, at_ s p = Some rec -> p < size s -> Ancestor rec = kINVALID_UINT ->
     MotherTrackID s p = TrackID rec \/ MotherTrackID s p = 0 ->
     s' = s /\ r = TrackID rec) /\
  (forall q rec, at_ s q = Some rec -> Ancestor rec <> kINVALID_UINT ->
     at_ s' q = Some rec).
Proof.
  intros H.
  assert (Hcached : forall fuel0 rec,
            p < size s -> at_ s p = Some rec -> r <> kINVALID_UINT ->
            AncestorTrackID fuel0 (cache_ancestor p r s) p
            = Returns r (cache_ancestor p r s)).
  { intros fuel0 rec Hlt Hrec Hr. unfold AncestorTrackID.
    replace (size (cache_ancestor p r s)) with (size s)
      by (unfold size, cache_ancestor; simpl; by rewrite length_alter).
    destruct (Z.leb_spec (size s) p); [lia |].
    rewrite cache_ancestor_at, Hrec. simpl.
    by destruct (Z.eqb_spec r kINVALID_UINT). }
  pose proof H as Hcases.
  apply AncestorTrackID_Returns in Hcases
    as [(Hge & -> & ->) | (rec & Hlt & Hrec & [(Hanc & -> & ->) |
         [(Hanc & Hself & -> & ->) | (Hanc & Hself & Hzero & Hclimb & ->)]])].
  - repeat split; try done; intros; lia.
  - repeat split; try done; intros; congruence.
  - split; [done |]. split; [| split; [| done]].
    + intros rec' Hrec' _ _ Hne Hne0. destruct Hself; congruence.
    + intros rec' Hrec' _ _ _. split; congruence.
  - split; [| split; [| split]].
    + destruct (decide (r = kINVALID_UINT)) as [->|Hr].
      * assert (cache_ancestor p kINVALID_UINT s = s) as E
          by (rewrite <- Hanc; by apply cache_ancestor_same).
        rewrite E in *. exact H.
      * by eapply Hcached.
    + intros rec' Hrec' _ _ _ _. split; [| split; [by eauto |]].
      * rewrite cache_ancestor_at, Hrec'. done.
      * intros ->.
        assert (cache_ancestor p kINVALID_UINT s = s) as E
          by (rewrite <- Hanc; by apply cache_ancestor_same).
        split; [exact E |]. rewrite E. unfold AncestorTrackID.
        destruct (Z.leb_spec (size s) p); [lia |].
        rewrite Hrec, Hanc, Z.eqb_refl. simpl.
        destruct (Z.eqb_spec (MotherTrackID s p) (TrackID rec)); [done |].
        by destruct (Z.eqb_spec (MotherTrackID s p) 0).
    + intros rec' Hrec' _ _ [Hs|Hz]; congruence.
    + intros q rec' Hq Hset. unfold at_.
      destruct (decide (Z.to_nat q = Z.to_nat p)) as [Heq|Hne].
      * unfold at_ in Hq, Hrec. rewrite Heq in Hq. congruence.
      * by rewrite cache_ancestor_other.
Qed.

Lemma AncestorTrackID_idempotent_witness :
  AncestorTrackID 4 (cache_ancestor 4 1 chain5) 4 = Returns 1 (cache_ancestor 4 1 chain5).
Proof.
  apply (proj1 (AncestorTrackID_idempotent 4 chain5 (cache_ancestor 4 1 chain5) 4 1
                  ltac:(by vm_compute))).
Defined.

(** The sentinel case at work: particle 5 names the mother -1, whose
    unsigned cast is the sentinel; the climb returns the sentinel, the write
    leaves the cache unset, and a second call without fuel does not answer. *)
Lemma AncestorTrackID_sentinel_example :
  AncestorTrackID 1 sentinel_mother 0 = Returns kINVALID_UINT sentinel_mother /\
  AncestorTrackID 0 sentinel_mother 0 = OutOfFuel.
Proof. by vm_compute. Qed.

(** ** Climbing a maternal chain *)

Lemma indexed_record_in_range (s : MCRecoPart) (p : Z) (rec : MCMiniPart) :
  indexed_record s p rec -> 0 <= p < size s.
Proof. intros (H0 & _ & Hat & _). split; [done |]. by eapply at_in_range. Qed.

(** Two indexed records with the same track id are one record. *)
Lemma indexed_record_inj (s : MCRecoPart) (p q : Z) (rp rq : MCMiniPart) :
  indexed_record s p rp -> indexed_record s q rq ->
  TrackID rp = TrackID rq -> p = q /\ rp = rq.
Proof.
  intros (_ & _ & Hp & _ & Hip) (_ & _ & Hq & _ & Hiq) Heq.
  assert (p = q) as -> by congruence. split; congruence.
Qed.

(** The mother of a record whose mother is indexed. *)
Lemma MotherTrackID_indexed (s : MCRecoPart) (p pm : Z) (rec rm : MCMiniPart) :
  indexed_record s p rec -> indexed_record s pm rm -> Mother rec = TrackID rm ->
  MotherTrackID s p = TrackID rm.
Proof.
  intros Hrec (_ & Hpm & _ & Hnz & Hidx) Hmother.
  destruct (indexed_record_in_range _ _ _ Hrec) as [H0 Hlt].
  destruct Hrec as (_ & _ & Hat & _). unfold MotherTrackID.
  destruct (Z.leb_spec (size s) p); [lia |]. rewrite Hat, Hmother.
  destruct (Z.eqb_spec (TrackID rm) 0); [done |]. rewrite Hidx.
  by destruct (Z.eqb_spec pm kINVALID_UINT).
Qed.

(** The mother of a primary is the primary. *)
Lemma MotherTrackID_primary (s : MCRecoPart) (p : Z) (rec : MCMiniPart) :
  indexed_record s p rec -> Mother rec = 0 -> MotherTrackID s p = TrackID rec.
Proof.
  intros Hrec Hmother.
  destruct (indexed_record_in_range _ _ _ Hrec) as [H0 Hlt].
  destruct Hrec as (_ & _ & Hat & _). unfold MotherTrackID.
  destruct (Z.leb_spec (size s) p); [lia |]. by rewrite Hat, Hmother.
Qed.

(** One turn of the loop at an indexed record whose mother differs from it. *)
Lemma climb_up (fuel : nat) (s : MCRecoPart) (p : Z) (rec : MCMiniPart) :
  indexed_record s p rec -> MotherTrackID s p <> TrackID rec ->
  climb (S fuel) s (TrackID rec) p
  = climb fuel s (MotherTrackID s p) (TrackToParticleIndex s (MotherTrackID s p)).
Proof.
  intros (_ & Hp & Hat & _) Hne. simpl.
  destruct (Z.eqb_spec p kINVALID_UINT); [done |]. simpl. rewrite Hat.
  by destruct (Z.eqb_spec (MotherTrackID s p) (TrackID rec)).
Qed.

(** The last turn of the loop, at a primary. *)
Lemma climb_top (fuel : nat) (s : MCRecoPart) (p : Z) (rec : MCMiniPart) :
  indexed_record s p rec -> Mother rec = 0 ->
  climb (S fuel) s (TrackID rec) p = Returns (TrackID rec) s.
Proof.
  intros Hrec Hmother. pose proof (MotherTrackID_primary s p rec Hrec Hmother) as Hm.
  destruct Hrec as (_ & Hp & Hat & _). simpl.
  destruct (Z.eqb_spec p kINVALID_UINT); [done |]. simpl. rewrite Hat, Hm.
  by rewrite Z.eqb_refl.
Qed.

(** The call on a record with an unset cache whose mother id is another,
    non-zero id: the climb decides, and its answer is cached. *)
Lemma AncestorTrackID_climb (fuel : nat) (s : MCRecoPart) (p r : Z) (rec : MCMiniPart) :
  0 <= p -> at_ s p = Some rec -> Ancestor rec = kINVALID_UINT ->
  MotherTrackID s p <> TrackID rec -> MotherTrackID s p <> 0 ->
  climb fuel s (MotherTrackID s p) (TrackToParticleIndex s (MotherTrackID s p))
  = Returns r s ->
  AncestorTrackID fuel s p = Returns r (cache_ancestor p r s).
Proof.
  intros H0 Hat Hanc Hself Hzero Hclimb. unfold AncestorTrackID.
  pose proof (at_in_range s p rec H0 Hat).
  destruct (Z.leb_spec (size s) p); [lia |]. rewrite Hat, Hanc, Z.eqb_refl. simpl.
  destruct (Z.eqb_spec (MotherTrackID s p) (TrackID rec)); [done |].
  destruct (Z.eqb_spec (MotherTrackID s p) 0); [done |].
  by rewrite Hclimb.
Qed.

(** A child and its indexed mother do not share a track id, as soon as the
    mother is not its own mother. *)
Lemma child_id_differs (s : MCRecoPart) (p pm : Z) (rec rm : MCMiniPart) :
  indexed_record s p rec -> indexed_record s pm rm ->
  Mother rec = TrackID rm -> Mother rm <> TrackID rm ->
  TrackID rm <> TrackID rec.
Proof.
  intros Hrec Hrm Hmother Hnot Heq.
  destruct (indexed_record_inj s pm p rm rec Hrm Hrec Heq) as [_ ->]. congruence.
Qed.

(** C6: on a fully ingested five-generation chain primary -> A -> B -> C -> D
    (every record indexed under its track id, each mother id that of the
    record above, the primary's mother id 0), the first ancestor query at D's
    position returns the primary's track id, after four turns of the loop,
    and caches it on D's record. *)
Theorem AncestorTrackID_five_generations (s : MCRecoPart) (fuel : nat)
    (pP pA pB pC pD : Z) (rP rA rB rC rD : MCMiniPart) :
  indexed_record s pP rP -> indexed_record s pA rA -> indexed_record s pB rB ->
  indexed_record s pC rC -> indexed_record s pD rD ->
  Mother rP = 0 -> Mother rA = TrackID rP -> Mother rB = TrackID rA ->
  Mother rC = TrackID rB -> Mother rD = TrackID rC ->
  Ancestor rD = kINVALID_UINT -> (4 <= fuel)%nat ->
  AncestorTrackID fuel s pD = Returns (TrackID rP) (cache_ancestor pD (TrackID rP) s).
Proof.
  intros HP HA HB HC HD MP MA MB MC MD Hanc Hfuel.
  assert (TrackID rP <> 0) as NP by (by destruct HP as (_ & _ & _ & ? & _)).
  assert (TrackID rP <> TrackID rA) as DA
    by (eapply child_id_differs; eauto; congruence).
  assert (TrackID rA <> TrackID rB) as DB
    by (eapply child_id_differs; eauto; congruence).
  assert (TrackID rB <> TrackID rC) as DC
    by (eapply child_id_differs; eauto; congruence).
  assert (TrackID rC <> TrackID rD) as DD
    by (eapply child_id_differs; eauto; congruence).
  pose proof (MotherTrackID_indexed s pD pC rD rC HD HC MD) as ED.
  pose proof (MotherTrackID_indexed s pC pB rC rB HC HB MC) as EC.
  pose proof (MotherTrackID_indexed s pB pA rB rA HB HA MB) as EB.
  pose proof (MotherTrackID_indexed s pA pP rA rP HA HP MA) as EA.
  assert (forall p rec, indexed_record s p rec ->
            TrackToParticleIndex s (TrackID rec) = p) as Hidx
    by (by intros p rec (_ & _ & _ & _ & ?)).
  destruct HD as (H0 & _ & Hat & HnzD & _).
  apply AncestorTrackID_climb with (rec := rD); try done; rewrite ED; try done.
  - by destruct HC as (_ & _ & _ & ? & _).
  - rewrite (Hidx pC rC HC).
    destruct fuel as [|[|[|[|fuel]]]]; try lia.
    rewrite (climb_up _ s pC rC HC), EC, (Hidx pB rB HB) by congruence.
    rewrite (climb_up _ s pB rB HB), EB, (Hidx pA rA HA) by congruence.
    rewrite (climb_up _ s pA rA HA), EA, (Hidx pP rP HP) by congruence.
    by apply climb_top.
Qed.


Lemma AncestorTrackID_five_generations_witness :
  AncestorTrackID 4 chain5 4 = Returns 1 (cache_ancestor 4 1 chain5).
Proof.
  assert (TrackID (record_at chain5 0) = 1) as E by (vm_compute; reflexivity).
  rewrite <- E.
  apply (AncestorTrackID_five_generations chain5 4 0 1 2 3 4
           (record_at chain5 0) (record_at chain5 1) (record_at chain5 2)
           (record_at chain5 3) (record_at chain5 4));
    unfold indexed_record; split_and?; by vm_compute.
Defined.

(** ** Climbing a chain with a missing record *)

Lemma find_first_inv {A : Type} (f : A -> bool) (l : list A) (i : nat) (x : A) :
  l !! i = Some x -> f x = true ->
  (forall (j : nat) (y : A), (j < i)%nat -> l !! j = Some y -> f y = false) ->
  List.find f l = Some x.
Proof.
  revert i. induction l as [|a l IH]; intros i Hi Hfx Hbefore; [done |].
  destruct i as [|i]; simpl in *.
  - injection Hi as ->. by rewrite Hfx.
  - rewrite (Hbefore 0%nat a) by (done || lia).
    apply (IH i); [done.. |]. intros j y Hj Hy. apply (Hbefore (S j)); [lia | done].
Qed.

Lemma daughter_scan_first (s : MCRecoPart) (d : Z) (q : MCMiniPart) :
  first_with_daughter s d q -> daughter_scan s d = TrackID q.
Proof.
  intros (i & Hi & Hd & Hbefore). unfold daughter_scan.
  by rewrite (find_first_inv (fun p => HasDaughter p d) (parts s) i q).
Qed.

(** The mother of a record whose mother id resolves nowhere and that no
    record lists as a daughter: the dangling id itself. *)
Lemma MotherTrackID_dangling (s : MCRecoPart) (p : Z) (rec : MCMiniPart) :
  0 <= p -> at_ s p = Some rec -> Mother rec <> 0 ->
  TrackToParticleIndex s (Mother rec) = kINVALID_UINT ->
  no_record_with_daughter s (TrackID rec) ->
  MotherTrackID s p = Mother rec.
Proof.
  intros H0 Hat Hnz Hidx Hnone. pose proof (at_in_range s p rec H0 Hat).
  unfold MotherTrackID. destruct (Z.leb_spec (size s) p); [lia |]. rewrite Hat.
  destruct (Z.eqb_spec (Mother rec) 0); [done |]. rewrite Hidx, Z.eqb_refl. simpl.
  apply find_none_elem in Hnone. by rewrite Hnone.
Qed.

(** One turn of the loop at an id the index does not resolve, when the
    linear search finds a record listing it as a daughter. *)
Lemma climb_scan (fuel : nat) (s : MCRecoPart) (result : Z) :
  daughter_scan s result <> result ->
  climb (S fuel) s result kINVALID_UINT
  = climb fuel s (daughter_scan s result)
          (TrackToParticleIndex s (daughter_scan s result)).
Proof.
  intros Hne. simpl. by destruct (Z.eqb_spec (daughter_scan s result) result).
Qed.

Section BrokenChain.

Variables (s : MCRecoPart) (n k : nat) (t pos : nat -> Z).
Hypothesis Hbc : broken_chain s n k t pos.

Lemma bc_record (i : nat) :
  (i <= n)%nat -> i <> k ->
  exists rec : MCMiniPart,
    indexed_record s (pos i) rec /\ TrackID rec = t i /\
    Mother rec = match i with O => 0 | S i' => t i' end.
Proof. apply (bc_records _ _ _ _ _ Hbc). Qed.

Lemma bc_index (i : nat) :
  (i <= n)%nat -> i <> k -> TrackToParticleIndex s (t i) = pos i.
Proof.
  intros Hi Hk. destruct (bc_record i Hi Hk) as (rec & (_ & _ & _ & _ & Hidx) & <- & _).
  done.
Qed.

(** Every step up the chain is what [MotherTrackID] answers, also across
    the gap. *)
Lemma bc_mother (i : nat) :
  (S i <= n)%nat -> S i <> k -> MotherTrackID s (pos (S i)) = t i.
Proof.
  intros Hi Hk. destruct (bc_record (S i) Hi Hk) as (rec & Hrec & Hid & Hmother).
  destruct (decide (i = k)) as [->|Hik].
  - destruct Hrec as (H0 & _ & Hat & _). rewrite <- Hmother.
    apply MotherTrackID_dangling; [done.. | | |]; rewrite ?Hmother, ?Hid.
    + apply (bc_missing_id _ _ _ _ _ Hbc).
    + apply (bc_missing _ _ _ _ _ Hbc).
    + apply (bc_orphan _ _ _ _ _ Hbc).
  - destruct (bc_record i ltac:(lia) Hik) as (rm & Hrm & Hidm & _).
    rewrite <- Hidm. eapply MotherTrackID_indexed; [done.. |]. congruence.
Qed.

(** From [t i] the loop reaches [t 0] in [i + 1] turns. *)
Lemma bc_climb (i fuel : nat) :
  (i <= n)%nat ->
  climb (S i + fuel) s (t i) (TrackToParticleIndex s (t i)) = Returns (t 0%nat) s.
Proof.
  induction i as [|i IH]; intros Hi.
  - destruct (bc_middle _ _ _ _ _ Hbc) as [Hk _].
    destruct (bc_record 0%nat Hi ltac:(lia)) as (rec & Hrec & Hid & Hmother).
    rewrite bc_index by lia. rewrite <- Hid. by apply climb_top.
  - assert (t i <> t (S i)) as Hne.
    { intros Heq. apply (bc_ids_distinct _ _ _ _ _ Hbc) in Heq; lia. }
    destruct (decide (S i = k)) as [Hk|Hk].
    + destruct (bc_link _ _ _ _ _ Hbc) as (q & Hq & Hidq).
      pose proof (daughter_scan_first s (t k) q Hq) as Hscan.
      pose proof (bc_missing _ _ _ _ _ Hbc) as Hmiss.
      rewrite Hidq in Hscan. rewrite <- Hk in Hscan, Hmiss.
      replace (S i - 1)%nat with i in Hscan by lia.
      change (S (S i) + fuel)%nat with (S (S i + fuel)).
      rewrite Hmiss, climb_scan; rewrite Hscan; [| done]. apply IH. lia.
    + destruct (bc_record (S i) Hi Hk) as (rec & Hrec & Hid & Hmother).
      rewrite bc_index by done. rewrite <- Hid.
      change (S (S i) + fuel)%nat with (S (S i + fuel)).
      rewrite (climb_up _ s (pos (S i)) rec Hrec); rewrite bc_mother by done.
      * apply IH. lia.
      * congruence.
Qed.

(** The records of the chain sit at pairwise distinct positions, so the
    collection holds at least [n] records. *)
Lemma bc_length : (n <= length (parts s))%nat.
Proof.
  set (skip := fun i : nat => if (i <? k)%nat then i else S i).
  set (l := (fun i => Z.to_nat (pos (skip i))) <$> seq 0 n).
  assert (Hskip : forall i, (i < n)%nat -> (skip i <= n)%nat /\ skip i <> k).
  { intros i Hi. unfold skip. destruct (Nat.ltb_spec i k); lia. }
  assert (Hinj : forall i j, (i < n)%nat -> (j < n)%nat -> skip i = skip j -> i = j).
  { intros i j Hi Hj. unfold skip.
    destruct (Nat.ltb_spec i k), (Nat.ltb_spec j k); lia. }
  assert (NoDup l) as Hnodup.
  { apply NoDup_fmap_2_strong; [| apply NoDup_seq].
    intros i j Hi%elem_of_seq Hj%elem_of_seq Heq.
    destruct (Hskip i) as [Hi1 Hi2]; [lia |]. destruct (Hskip j) as [Hj1 Hj2]; [lia |].
    destruct (bc_record _ Hi1 Hi2) as (ri & (_ & _ & Hati & _) & Hidi & _).
    destruct (bc_record _ Hj1 Hj2) as (rj & (_ & _ & Hatj & _) & Hidj & _).
    unfold at_ in Hati, Hatj. rewrite Heq in Hati.
    apply Hinj; [lia.. |]. apply (bc_ids_distinct _ _ _ _ _ Hbc); [done.. |].
    congruence. }
  assert (l ⊆+ seq 0 (length (parts s))) as Hsub.
  { apply NoDup_submseteq; [done |]. intros x (i & -> & Hi%elem_of_seq)%list_elem_of_fmap.
    destruct (Hskip i) as [Hi1 Hi2]; [lia |].
    destruct (bc_record _ Hi1 Hi2) as (ri & (_ & _ & Hati & _) & _).
    apply lookup_lt_Some in Hati. apply elem_of_seq. lia. }
  apply submseteq_length in Hsub. unfold l in Hsub.
  by rewrite length_fmap, !length_seq in Hsub.
Qed.

(** C5: on a chain with one missing middle record whose id some record
    lists as a daughter, the first ancestor query at the record of [t j]
    returns the primary's track id [t 0], crossing the gap by the linear
    search; the loop makes [j] turns, and [j] is at most the number of
    records, so that many turns of fuel are enough. *)
Theorem AncestorTrackID_broken_chain (j : nat) (rec : MCMiniPart) :
  (1 <= j <= n)%nat -> j <> k ->
  at_ s (pos j) = Some rec -> Ancestor rec = kINVALID_UINT ->
  (j <= length (parts s))%nat /\
  (forall fuel : nat, (j <= fuel)%nat ->
     AncestorTrackID fuel s (pos j)
     = Returns (t 0%nat) (cache_ancestor (pos j) (t 0%nat) s)) /\
  AncestorTrackID (length (parts s)) s (pos j)
  = Returns (t 0%nat) (cache_ancestor (pos j) (t 0%nat) s).
Proof.
  intros Hj Hjk Hat Hanc. pose proof bc_length as Hlen.
  assert (Hall : forall fuel : nat, (j <= fuel)%nat ->
            AncestorTrackID fuel s (pos j)
            = Returns (t 0%nat) (cache_ancestor (pos j) (t 0%nat) s)).
  { intros fuel Hfuel. destruct j as [|i]; [lia |].
    destruct (bc_record (S i) ltac:(lia) Hjk) as (rec' & Hrec & Hid & Hmother).
    assert (rec' = rec) as -> by (destruct Hrec as (_ & _ & ? & _); congruence).
    destruct Hrec as (H0 & _ & _ & Hnz & _).
    assert (t i <> t (S i)) as Hne.
    { intros Heq. apply (bc_ids_distinct _ _ _ _ _ Hbc) in Heq; lia. }
    assert (t i <> 0) as Hnzi.
    { destruct (decide (i = k)) as [->|Hik]; [apply (bc_missing_id _ _ _ _ _ Hbc) |].
      destruct (bc_record i ltac:(lia) Hik) as (rm & (_ & _ & _ & ? & _) & <- & _). done. }
    apply AncestorTrackID_climb with (rec := rec); try done;
      rewrite bc_mother by (done || lia); try congruence.
    replace fuel with (S i + (fuel - S i))%nat by lia. apply bc_climb. lia. }
  split; [lia |]. split; [done |]. apply Hall. lia.
Qed.

End BrokenChain.

Lemma example_broken_chain :
  broken_chain chain5_without_3 4 2 example_id example_pos.
Proof.
  constructor.
  - lia.
  - unfold example_id. lia.
  - intros i Hi Hk.
    destruct i as [|[|[|[|[|i]]]]]; try lia;
      match goal with
      | |- exists _, indexed_record _ ?p _ /\ _ =>
          exists (record_at chain5_without_3 (Z.to_nat p))
      end;
      unfold indexed_record; split_and?; by vm_compute.
  - done.
  - by vm_compute.
  - unfold no_record_with_daughter. apply Forall_forall.
    remember (parts chain5_without_3) as l eqn:El. vm_compute in El. subst l.
    repeat (constructor; [by vm_compute |]). constructor.
  - exists (record_at chain5_without_3 1). split; [| by vm_compute].
    exists 1%nat. split_and?; [by vm_compute.. |].
    intros j q' Hj Hq'. destruct j as [|[|]]; try lia.
    vm_compute in Hq'. injection Hq' as <-. by vm_compute.
Qed.

Lemma AncestorTrackID_broken_chain_witness :
  (4 <= length (parts chain5_without_3))%nat /\
  AncestorTrackID 4 chain5_without_3 3 = Returns 1 (cache_ancestor 3 1 chain5_without_3).
Proof.
  destruct (AncestorTrackID_broken_chain chain5_without_3 4 2 example_id example_pos
              example_broken_chain 4 (record_at chain5_without_3 3))
    as (Hlen & Hfuel & _); [lia | lia | by vm_compute | by vm_compute |].
  split; [exact Hlen |]. apply (Hfuel 4%nat). lia.
Defined.

(** ** The detector path of [AddParticles] *)

Lemma set_insert_snoc (i : nat) (l : list nat) :
  Forall (fun j => (j < i)%nat) l -> set_insert i l = l ++ [i].
Proof.
  induction 1 as [|j l Hj _ IH]; simpl; [done |].
  destruct (Nat.ltb_spec i j); [lia |].
  destruct (Nat.eqb_spec i j); [lia |]. by rewrite IH.
Qed.

Lemma set_insert_front (i j : nat) (l : list nat) :
  (i < j)%nat -> set_insert i (j :: l) = i :: j :: l.
Proof. intros Hij. simpl. by destruct (Nat.ltb_spec i j); [| lia]. Qed.

Section Selection.

Variable P : nat -> bool.

Let step (acc : list nat) (i : nat) : list nat :=
  if P i then set_insert i acc else acc.

(** Inserting the selected indices in increasing order appends them. *)
Lemma fold_select (n a : nat) (acc : list nat) :
  Forall (fun j => (j < a)%nat) acc ->
  fold_left step (seq a n) acc = acc ++ List.filter P (seq a n).
Proof.
  revert a acc. induction n as [|n IH]; intros a acc Hacc; simpl.
  - by rewrite app_nil_r.
  - unfold step at 2. destruct (P a).
    + rewrite set_insert_snoc by done. rewrite IH.
      * by rewrite <- app_assoc.
      * apply Forall_app. split; [| by repeat constructor].
        eapply Forall_impl; [exact Hacc |]. simpl. lia.
    + apply IH. eapply Forall_impl; [exact Hacc |]. simpl. lia.
Qed.

Lemma filter_seq_bounds (n a x : nat) :
  In x (List.filter P (seq a n)) -> (a <= x < a + n)%nat.
Proof. intros [Hx _]%filter_In. apply in_seq in Hx. lia. Qed.

Lemma filter_seq_sorted (n a : nat) : StronglySorted lt (List.filter P (seq a n)).
Proof.
  revert a. induction n as [|n IH]; intros a; simpl; [constructor |].
  destruct (P a); [| apply IH]. constructor; [apply IH |].
  apply List.Forall_forall. intros x Hx%filter_seq_bounds. lia.
Qed.

End Selection.

Lemma contained_index_inside (s : MCRecoPart) (mcp : simb.MCParticle) :
  contained_index s mcp = inside_points s mcp.
Proof.
  unfold contained_index, inside_points.
  by rewrite (fold_select
    (fun i => InDetector s (simb.Vx mcp i) (simb.Vy mcp i) (simb.Vz mcp i))).
Qed.

Lemma sorted_le_last (l : list nat) (x : nat) :
  StronglySorted lt l -> In x l -> (x <= List.last l 0)%nat.
Proof.
  intros Hs. revert x. induction Hs as [|a l Hl IH Ha]; intros x; [done |].
  intros [->|Hx].
  - destruct l as [|b l]; [simpl; lia |].
    change (List.last (x :: b :: l) 0%nat) with (List.last (b :: l) 0%nat).
    apply Forall_cons_1 in Ha as [Hb _].
    specialize (IH b ltac:(by left)). unfold lt in Hb. lia.
  - destruct l as [|b l]; [done |].
    change (List.last (a :: b :: l) 0%nat) with (List.last (b :: l) 0%nat). auto.
Qed.

Lemma last_left_pad (sel : list nat) :
  sel <> [] -> List.last (left_pad sel ++ sel) 0%nat = List.last sel 0%nat.
Proof.
  intros Hsel. unfold left_pad. destruct (hd 0 sel =? 0)%nat; [done |].
  by destruct sel.
Qed.

Lemma left_pad_sorted (sel : list nat) :
  StronglySorted lt sel -> StronglySorted lt (left_pad sel ++ sel).
Proof.
  intros Hs. unfold left_pad. destruct sel as [|lo rest]; [done |]. simpl.
  destruct (Nat.eqb_spec lo 0); [done |]. simpl. constructor; [done |].
  apply StronglySorted_inv in Hs as [_ Hlo].
  constructor; [lia |]. eapply Forall_impl; [exact Hlo |]. simpl. lia.
Qed.

(** The two padding steps compute the padded selection. *)
Lemma pad_index_padded (npoints : nat) (sel : list nat) :
  sel <> [] -> StronglySorted lt sel ->
  pad_index npoints sel = padded npoints sel /\ StronglySorted lt (padded npoints sel).
Proof.
  intros Hne Hs. pose proof (left_pad_sorted sel Hs) as Hs1.
  assert (Hleft : (if negb (hd 0 sel =? 0)%nat
                   then set_insert (hd 0 sel - 1)%nat sel else sel)
                  = left_pad sel ++ sel).
  { unfold left_pad. destruct sel as [|lo rest]; [done |]. simpl hd.
    destruct (Nat.eqb_spec lo 0); [done |]. simpl negb. cbv iota.
    rewrite set_insert_front by lia. done. }
  unfold pad_index. rewrite Hleft. rewrite last_left_pad by done.
  unfold padded, right_pad.
  destruct (1 <? length (left_pad sel ++ sel))%nat; simpl andb; cbv iota;
    [| by rewrite app_nil_r].
  destruct (Nat.ltb_spec (List.last sel 0%nat + 1) npoints); [| by rewrite app_nil_r].
  assert (Forall (fun j => (j < List.last sel 0 + 1)%nat) (left_pad sel ++ sel)) as Hlt.
  { apply List.Forall_forall. intros x Hx.
    apply (sorted_le_last _ x Hs1) in Hx. rewrite last_left_pad in Hx by done. lia. }
  rewrite set_insert_snoc by done. rewrite <- app_assoc. split; [done |].
  rewrite app_assoc. apply StronglySorted_app_2; [| exact Hs1 | by repeat constructor].
  intros x1 x2 Hx1 ->%list_elem_of_singleton.
  rewrite list_elem_of_In in Hx1. rewrite List.Forall_forall in Hlt. by apply Hlt.
Qed.

Lemma det_path_index_interest (s : MCRecoPart) (mcp : simb.MCParticle) :
  simb.PdgCode mcp ∈ _pdg_list s ->
  (inside_points s mcp = [] -> det_path_index s mcp = None) /\
  (inside_points s mcp <> [] ->
   det_path_index s mcp
   = Some (padded (simb.NumberTrajectoryPoints mcp) (inside_points s mcp)) /\
   StronglySorted lt (padded (simb.NumberTrajectoryPoints mcp) (inside_points s mcp))).
Proof.
  intros Hpdg. unfold det_path_index. rewrite bool_decide_eq_true_2 by done.
  rewrite contained_index_inside. split.
  - by intros ->.
  - intros Hne.
    destruct (pad_index_padded (simb.NumberTrajectoryPoints mcp) (inside_points s mcp))
      as [-> Hsorted]; [done | apply filter_seq_sorted |].
    by destruct (inside_points s mcp).
Qed.

Lemma add_daughters_det_path (f : nat -> Z) (l : list nat) (m : MCMiniPart) :
  _det_path (fold_left (fun m i => AddDaughter (f i) m) l m) = _det_path m.
Proof. revert m. induction l as [|i l IH]; intros m; simpl; [done |]. by rewrite IH. Qed.

(** The stored path is the one of the index set, and absent without one. *)
Lemma mini_of_det_path (s : MCRecoPart) (mcp : simb.MCParticle) (orig : simb.Origin_t) :
  _det_path (mini_of s mcp orig) = det_path_of mcp <$> det_path_index s mcp.
Proof.
  unfold mini_of. destruct (det_path_index s mcp) as [idx|]; simpl; [done |].
  apply add_daughters_det_path.
Qed.

(** C2, as stated, fails when point 0 alone is inside: nothing is added
    before index 0, the set then holds one index, and the right pad is only
    tried on a set of more than one. The path is {0}, not {0,1}. *)
Lemma det_path_index_first_point_counterexample :
  let mcp := example_track [true; false; false; false; false;
                            false; false; false; false; false] in
  simb.PdgCode mcp ∈ _pdg_list box10 /\ simb.NumberTrajectoryPoints mcp = 10%nat /\
  inside_points box10 mcp = [0%nat] /\
  det_path_index box10 mcp = Some [0%nat] /\
  det_path_index box10 mcp <> Some [0%nat; 1%nat].
Proof. cbv zeta. split_and?; by vm_compute. Qed.

(** C2 (amended): for a trajectory of a species of interest the stored path
    follows the indices of the points inside the box, ascending, padded with
    the index before the first selected one when that is not 0, and with the
    index after the last selected one when that index exists and the set,
    left pad included, holds more than one index. Points 3,4,5 of ten give
    {2,3,4,5,6}; a single inside point i > 0 gives {i-1, i} and i+1 when it
    exists; point 0 alone gives {0}; no inside point gives no path. *)
Theorem det_path_index_padded (s : MCRecoPart) (mcp : simb.MCParticle)
    (orig : simb.Origin_t) :
  simb.PdgCode mcp ∈ _pdg_list s ->
  let sel := inside_points s mcp in
  let npoints := simb.NumberTrajectoryPoints mcp in
  (sel = [] -> det_path_index s mcp = None /\ _det_path (mini_of s mcp orig) = None) /\
  (sel <> [] ->
   det_path_index s mcp = Some (padded npoints sel) /\
   StronglySorted lt (padded npoints sel) /\
   _det_path (mini_of s mcp orig) = Some (det_path_of mcp (padded npoints sel))) /\
  (sel = [3; 4; 5]%nat -> npoints = 10%nat ->
   det_path_index s mcp = Some [2; 3; 4; 5; 6]%nat) /\
  (forall i : nat, sel = [S i] ->
   det_path_index s mcp
   = Some ([i; S i] ++ if (S i + 1 <? npoints)%nat then [(S i + 1)%nat] else [])) /\
  (sel = [0%nat] -> det_path_index s mcp = Some [0%nat]).
Proof.
  intros Hpdg sel npoints.
  destruct (det_path_index_interest s mcp Hpdg) as [Hnone Hsome].
  fold sel npoints in Hnone, Hsome. split_and?.
  - intros Hsel. rewrite mini_of_det_path, (Hnone Hsel). done.
  - intros Hsel. destruct (Hsome Hsel) as [Hidx Hsorted].
    rewrite mini_of_det_path, Hidx. done.
  - intros Hsel Hn. destruct Hsome as [-> _]; [by rewrite Hsel |].
    by rewrite Hsel, Hn.
  - intros i Hsel. destruct Hsome as [-> _]; [by rewrite Hsel |].
    rewrite Hsel. unfold padded, left_pad, right_pad. simpl.
    rewrite Nat.sub_0_r. by destruct (S (i + 1) <? npoints)%nat.
  - intros Hsel. destruct Hsome as [-> _]; [by rewrite Hsel |].
    by rewrite Hsel.
Qed.

Lemma det_path_index_padded_witness :
  det_path_index box10
    (example_track [false; false; false; true; true; true;
                    false; false; false; false])
  = Some [2; 3; 4; 5; 6]%nat.
Proof.
  apply (det_path_index_padded box10
           (example_track [false; false; false; true; true; true;
                           false; false; false; false]) simb.kUnknown).
  - by vm_compute.
  - by vm_compute.
  - by vm_compute.
Defined.

(** ** [AddParticles]: the collection and the index *)

Lemma first_position_app (k : Z) (keys keys' : list Z) :
  first_position k (keys ++ keys')
  = match first_position k keys with
    | Some i => Some i
    | None => (fun i => (length keys + i)%nat) <$> first_position k keys'
    end.
Proof.
  induction keys as [|k0 keys IH]; simpl.
  - by destruct (first_position k keys').
  - destruct (k =? k0); [done |]. rewrite IH.
    destruct (first_position k keys); [done |].
    by destruct (first_position k keys').
Qed.

Lemma first_position_Some (k : Z) (keys : list Z) (i : nat) :
  first_position k keys = Some i <->
  keys !! i = Some k /\ forall j : nat, (j < i)%nat -> keys !! j <> Some k.
Proof.
  revert i. induction keys as [|k0 keys IH]; intros i; simpl.
  - split; [done | by intros [? _]].
  - destruct (Z.eqb_spec k k0) as [->|Hne].
    + split.
      * intros [= <-]. split; [done | lia].
      * intros [Hi Hfirst]. destruct i as [|i]; [done |].
        by destruct (Hfirst 0%nat ltac:(lia)).
    + rewrite fmap_Some. split.
      * intros (i' & Hpos & ->). apply IH in Hpos as [Hi Hfirst]. split; [done |].
        intros [|j] Hj; simpl; [congruence | apply Hfirst; lia].
      * intros [Hi Hfirst]. destruct i as [|i]; simpl in Hi; [congruence |].
        exists i. split; [| done]. apply IH. split; [done |].
        intros j Hj. apply (Hfirst (S j)). lia.
Qed.

Lemma first_position_elem (k : Z) (keys : list Z) :
  k ∈ keys -> is_Some (first_position k keys).
Proof.
  induction 1 as [k keys|k k0 keys _ IH]; simpl.
  - rewrite Z.eqb_refl. eauto.
  - destruct (k =? k0); [eauto |]. destruct IH as [i ->]. simpl. eauto.
Qed.

Lemma ingested_clear (s : MCRecoPart) : ingested s (clear s) [] [].
Proof. unfold ingested, clear. simpl. by repeat split. Qed.

(** One insertion into the index followed by one [push_back]. *)
Lemma ingested_step (s0 s' : MCRecoPart) (keys : list Z) (recs : list MCMiniPart)
    (k : Z) (r : MCMiniPart) :
  ingested s0 s' keys recs ->
  ingested s0
    (push_back r (with_track_index (map_insert_new k (size s') (_track_index s')) s'))
    (keys ++ [k]) (recs ++ [r]).
Proof.
  intros (Hparts & Hlen & Hidx & Hcfg). unfold ingested, push_back. simpl.
  rewrite Hparts. split; [done |]. split; [rewrite !length_app; simpl; lia |].
  split; [| done]. intros k'. rewrite first_position_app. simpl.
  unfold map_insert_new. rewrite (Hidx k).
  destruct (first_position k keys) as [i|] eqn:Hk; simpl.
  - rewrite Hidx. destruct (first_position k' keys) as [i'|] eqn:Hk'; [done |].
    destruct (Z.eqb_spec k' k) as [->|]; [congruence | done].
  - rewrite lookup_insert. destruct (decide (k = k')) as [<-|Hne].
    + rewrite Hk, Z.eqb_refl. simpl. unfold size. rewrite Hparts, Hlen.
      do 2 f_equal. lia.
    + rewrite Hidx. destruct (first_position k' keys); [done |].
      by destruct (Z.eqb_spec k' k); [congruence |].
Qed.

(** The record of an input particle depends on the object only through
    its configuration (species set and box). *)
Lemma mini_of_config (s s' : MCRecoPart) (mcp : simb.MCParticle) (orig : simb.Origin_t) :
  _pdg_list s' = _pdg_list s ->
  _x_min s' = _x_min s -> _x_max s' = _x_max s -> _y_min s' = _y_min s ->
  _y_max s' = _y_max s -> _z_min s' = _z_min s -> _z_max s' = _z_max s ->
  mini_of s' mcp orig = mini_of s mcp orig.
Proof.
  intros Hpdg Hx0 Hx1 Hy0 Hy1 Hz0 Hz1.
  unfold mini_of, det_path_index, contained_index, InDetector.
  by rewrite Hpdg, Hx0, Hx1, Hy0, Hy1, Hz0, Hz1.
Qed.

Lemma mini_of_TrackID (s : MCRecoPart) (mcp : simb.MCParticle) (orig : simb.Origin_t) :
  TrackID (mini_of s mcp orig) = to_uint (simb.TrackId mcp).
Proof. unfold mini_of. by destruct (det_path_index s mcp). Qed.

(** The first loop. *)
Lemma ingested_particles (s : MCRecoPart) (l : list (simb.MCParticle * simb.Origin_t)) :
  ingested s (fold_left add_particle l (clear s))
    (particle_key ∘ fst <$> l) ((fun mo => mini_of s (fst mo) (snd mo)) <$> l).
Proof.
  induction l as [|mo l IH] using rev_ind; [apply ingested_clear |].
  rewrite fold_left_app, !fmap_app. simpl. unfold add_particle at 1.
  set (s1 := fold_left add_particle l (clear s)) in *.
  pose proof IH as (_ & _ & _ & Hpdg & Hx0 & Hx1 & Hy0 & Hy1 & Hz0 & Hz1).
  rewrite (mini_of_config s) by done.
  by apply ingested_step.
Qed.

(** The second loop. *)
Lemma ingested_dropped (s0 s1 : MCRecoPart) (keys : list Z) (recs mcmp_v : list MCMiniPart) :
  ingested s0 s1 keys recs ->
  ingested s0 (fold_left add_dropped mcmp_v s1)
    (keys ++ (TrackID <$> mcmp_v)) (recs ++ mcmp_v).
Proof.
  intros H1. induction mcmp_v as [|m mcmp_v IH] using rev_ind.
  - simpl. by rewrite !app_nil_r.
  - rewrite fold_left_app, fmap_app, !app_assoc. simpl. unfold add_dropped at 1.
    by apply ingested_step.
Qed.

Lemma fst_combine {A B : Type} (l : list A) (l' : list B) :
  length l' = length l -> fst <$> combine l l' = l.
Proof.
  revert l'. induction l as [|x l IH]; intros [|y l'] Hlen; simpl in *; try done.
  f_equal. apply IH. lia.
Qed.

(** What a call with vectors of equal length returns. *)
Lemma AddParticles_ingested (s : MCRecoPart) (mcp_v : list simb.MCParticle)
    (orig_v : list simb.Origin_t) (mcmp_v : list MCMiniPart) :
  length orig_v = length mcp_v ->
  exists s' : MCRecoPart,
    AddParticles s mcp_v orig_v mcmp_v = Returns tt s' /\
    ingested s s'
      ((particle_key <$> mcp_v) ++ (TrackID <$> mcmp_v))
      (((fun mo => mini_of s (fst mo) (snd mo)) <$> combine mcp_v orig_v) ++ mcmp_v).
Proof.
  intros Hlen. unfold AddParticles. rewrite Hlen, Nat.eqb_refl. simpl.
  eexists. split; [reflexivity |].
  pose proof (ingested_dropped s _ _ _ mcmp_v (ingested_particles s (combine mcp_v orig_v)))
    as H.
  replace (particle_key ∘ fst <$> combine mcp_v orig_v) with (particle_key <$> mcp_v) in H;
    [done |].
  rewrite list_fmap_compose. f_equal. symmetry. by apply fst_combine.
Qed.

(** The narrowing to the key type undoes the widening to [size_t]. *)
Lemma index_key_to_size_t (a : Z) : index_key (to_size_t a) = to_uint a.
Proof.
  unfold index_key, to_uint, to_size_t.
  apply Z.mod_mod_divide. exists (2 ^ 32). lia.
Qed.

Lemma to_uint_int (a : Z) :
  is_int a -> to_uint a = if a <? 0 then a + 2 ^ 32 else a.
Proof.
  unfold is_int, to_uint. intros Ha. symmetry. destruct (Z.ltb_spec a 0).
  - apply (Z.mod_unique_pos _ _ (-1)); lia.
  - apply (Z.mod_unique_pos _ _ 0); lia.
Qed.

(** Distinct [int] track ids are indexed under distinct keys. *)
Lemma particle_key_inj (p q : simb.MCParticle) :
  is_int (simb.TrackId p) -> is_int (simb.TrackId q) ->
  particle_key p = particle_key q -> simb.TrackId p = simb.TrackId q.
Proof.
  intros Hp Hq. unfold particle_key. rewrite !index_key_to_size_t, !to_uint_int by done.
  unfold is_int in *.
  destruct (Z.ltb_spec (simb.TrackId p) 0), (Z.ltb_spec (simb.TrackId q) 0); lia.
Qed.

Lemma to_uint_nonneg (a : Z) : 0 <= a < 2 ^ 31 -> to_uint a = a.
Proof. intros Ha. unfold to_uint. apply Z.mod_small. lia. Qed.

Lemma mini_of_TrackIDs (s : MCRecoPart) (mcp_v : list simb.MCParticle)
    (orig_v : list simb.Origin_t) :
  length orig_v = length mcp_v ->
  TrackID <$> ((fun mo => mini_of s (fst mo) (snd mo)) <$> combine mcp_v orig_v)
  = to_uint ∘ simb.TrackId <$> mcp_v.
Proof.
  intros Hlen. rewrite <- (fst_combine mcp_v orig_v Hlen) at 2.
  rewrite <- !list_fmap_compose. apply list_fmap_ext.
  intros i [mcp orig] _. simpl. apply mini_of_TrackID.
Qed.

(** C9: when two particles of the full batch share a track id, both get
    their record, at their own positions, and the index sends the id to the
    position of the first of them: the later insertion changes nothing. *)
Theorem AddParticles_duplicate_particle (s : MCRecoPart)
    (mcp_v : list simb.MCParticle) (orig_v : list simb.Origin_t)
    (mcmp_v : list MCMiniPart) (i j : nat) (pi pj : simb.MCParticle) :
  length orig_v = length mcp_v ->
  Forall (fun p => is_int (simb.TrackId p)) mcp_v ->
  mcp_v !! i = Some pi -> mcp_v !! j = Some pj -> (i < j)%nat ->
  simb.TrackId pj = simb.TrackId pi ->
  (forall (i' : nat) (p' : simb.MCParticle),
     (i' < i)%nat -> mcp_v !! i' = Some p' -> simb.TrackId p' <> simb.TrackId pi) ->
  exists s' : MCRecoPart,
    AddParticles s mcp_v orig_v mcmp_v = Returns tt s' /\
    length (parts s') = (length mcp_v + length mcmp_v)%nat /\
    TrackID <$> parts s' !! i = Some (to_uint (simb.TrackId pi)) /\
    TrackID <$> parts s' !! j = Some (to_uint (simb.TrackId pi)) /\
    _track_index s' !! particle_key pi = Some (Z.of_nat i) /\
    _track_index s' !! particle_key pi <> Some (Z.of_nat j).
Proof.
  intros Hlen Hint Hi Hj Hij Hsame Hfirst.
  destruct (AddParticles_ingested s mcp_v orig_v mcmp_v Hlen)
    as (s' & Hcall & Hparts & Hklen & Hidx & _).
  exists s'. split; [done |].
  assert (Hids : TrackID <$> parts s'
                 = (to_uint ∘ simb.TrackId <$> mcp_v) ++ (TrackID <$> mcmp_v)).
  { by rewrite Hparts, fmap_app, mini_of_TrackIDs. }
  assert (Hat : forall (a : nat) (p : simb.MCParticle), mcp_v !! a = Some p ->
            TrackID <$> parts s' !! a = Some (to_uint (simb.TrackId p))).
  { intros a p Ha. rewrite <- list_lookup_fmap, Hids.
    rewrite lookup_app_l by (rewrite length_fmap; by eapply lookup_lt_Some).
    by rewrite list_lookup_fmap, Ha. }
  assert (Hpos : _track_index s' !! particle_key pi = Some (Z.of_nat i)).
  { rewrite Hidx.
    assert (first_position (particle_key pi)
              ((particle_key <$> mcp_v) ++ (TrackID <$> mcmp_v)) = Some i) as ->; [| done].
    apply first_position_Some. split.
    - rewrite lookup_app_l by (rewrite length_fmap; by eapply lookup_lt_Some).
      by rewrite list_lookup_fmap, Hi.
    - intros i' Hi'. apply lookup_lt_Some in Hi as Hilen.
      rewrite lookup_app_l by (rewrite length_fmap; lia).
      rewrite list_lookup_fmap.
      destruct (mcp_v !! i') as [p'|] eqn:Hp'; [| done]. simpl. intros [= Hkey].
      rewrite Forall_forall in Hint.
      apply particle_key_inj in Hkey;
        [| apply Hint; by eapply list_elem_of_lookup_2..].
      by apply (Hfirst i' p'). }
  split_and?.
  - rewrite <- Hparts in Hklen. rewrite <- Hklen, length_app, !length_fmap. done.
  - by apply Hat.
  - rewrite <- Hsame. by apply Hat.
  - done.
  - rewrite Hpos. intros [= Heq]. lia.
Qed.

Lemma AddParticles_duplicate_particle_witness :
  exists s' : MCRecoPart,
    AddParticles box10 [example_particle 7 0 []; example_particle 7 0 []]
      [simb.kUnknown; simb.kUnknown] [] = Returns tt s' /\
    _track_index s' !! 7 = Some 0.
Proof.
  destruct (AddParticles_duplicate_particle box10
              [example_particle 7 0 []; example_particle 7 0 []]
              [simb.kUnknown; simb.kUnknown] [] 0 1
              (example_particle 7 0 []) (example_particle 7 0 []))
    as (s' & Hcall & _ & _ & _ & Hidx & _);
    [done | by repeat constructor | done | done | lia | done | intros; lia |].
  exists s'. split; [exact Hcall | exact Hidx].
Defined.

(** C1, as stated, fails on a dropped record whose track id is already
    indexed: the index keeps its entry, but the record is pushed all the
    same, so the id sits at two positions of the collection. *)
Lemma AddParticles_dropped_duplicate_counterexample :
  AddParticles box10 [example_particle 1 0 []] [simb.kUnknown] [example_dropped 1 0 []]
  = Returns tt twice_ingested /\
  TrackID <$> parts twice_ingested = [1; 1] /\
  length (parts twice_ingested) = 2%nat /\
  _track_index twice_ingested !! 1 = Some 0.
Proof. by vm_compute. Qed.

(** C1 (amended): after a full batch (of non-negative track ids) and a
    dropped batch, the collection holds one record per element of either
    batch, in order, the dropped records as they came; the index sends each
    track id to the position of the first record that bears it, and every
    record's track id is indexed. A dropped record whose track id is already
    indexed leaves the records of the full batch and their index entries as
    they were, and is itself appended. *)
Theorem AddParticles_index_sync (s : MCRecoPart) (mcp_v : list simb.MCParticle)
    (orig_v : list simb.Origin_t) (mcmp_v : list MCMiniPart) :
  length orig_v = length mcp_v ->
  Forall (fun p => 0 <= simb.TrackId p < 2 ^ 31) mcp_v ->
  exists s' s1 : MCRecoPart,
    AddParticles s mcp_v orig_v mcmp_v = Returns tt s' /\
    AddParticles s mcp_v orig_v [] = Returns tt s1 /\
    TrackID <$> parts s' = (simb.TrackId <$> mcp_v) ++ (TrackID <$> mcmp_v) /\
    parts s' = parts s1 ++ mcmp_v /\
    (forall (t p : Z), _track_index s' !! t = Some p ->
       exists (i : nat) (rec : MCMiniPart),
         p = Z.of_nat i /\ parts s' !! i = Some rec /\ TrackID rec = t /\
         forall (j : nat) (rec' : MCMiniPart),
           (j < i)%nat -> parts s' !! j = Some rec' -> TrackID rec' <> t) /\
    (forall (i : nat) (rec : MCMiniPart),
       parts s' !! i = Some rec -> is_Some (_track_index s' !! TrackID rec)) /\
    (forall (t p : Z), _track_index s1 !! t = Some p -> _track_index s' !! t = Some p).
Proof.
  intros Hlen Hnonneg.
  destruct (AddParticles_ingested s mcp_v orig_v mcmp_v Hlen)
    as (s' & Hcall & Hparts & Hklen & Hidx & _).
  destruct (AddParticles_ingested s mcp_v orig_v [] Hlen)
    as (s1 & Hcall1 & Hparts1 & _ & Hidx1 & _).
  exists s', s1. split; [done |]. split; [done |].
  rewrite !app_nil_r in *.
  assert (Hkeys : particle_key <$> mcp_v = simb.TrackId <$> mcp_v).
  { apply Forall_fmap_ext. eapply Forall_impl; [exact Hnonneg |].
    intros p Hp. simpl. unfold particle_key.
    by rewrite index_key_to_size_t, to_uint_nonneg. }
  assert (Hids : TrackID <$> parts s'
                 = (simb.TrackId <$> mcp_v) ++ (TrackID <$> mcmp_v)).
  { rewrite Hparts, fmap_app, mini_of_TrackIDs by done. f_equal.
    apply Forall_fmap_ext. eapply Forall_impl; [exact Hnonneg |].
    intros p Hp. by apply to_uint_nonneg. }
  rewrite Hkeys, <- Hids in Hidx. rewrite Hkeys in Hidx1.
  split_and?.
  - done.
  - by rewrite Hparts, Hparts1.
  - intros t p Hp. rewrite Hidx in Hp.
    destruct (first_position t (TrackID <$> parts s')) as [i|] eqn:Hpos; [| done].
    injection Hp as <-. apply first_position_Some in Hpos as [Hi Hfirst].
    apply list_lookup_fmap_Some in Hi as (rec & -> & Hrec).
    exists i, rec. split_and?; [done.. |].
    intros j rec' Hj Hrec' Heq. apply (Hfirst j Hj).
    rewrite list_lookup_fmap, Hrec'. simpl. by rewrite Heq.
  - intros i rec Hrec. rewrite Hidx.
    destruct (first_position_elem (TrackID rec) (TrackID <$> parts s')) as [i' ->];
      [| by eauto].
    apply list_elem_of_fmap. exists rec. split; [done |].
    by eapply list_elem_of_lookup_2.
  - intros t p. rewrite Hidx, Hidx1, Hids, first_position_app.
    by destruct (first_position t (simb.TrackId <$> mcp_v)).
Qed.

Lemma AddParticles_index_sync_witness :
  exists s' : MCRecoPart,
    AddParticles box10 [example_particle 1 0 []] [simb.kUnknown]
      [example_dropped 1 0 []; example_dropped 7 1 []] = Returns tt s' /\
    TrackID <$> parts s' = [1; 1; 7].
Proof.
  destruct (AddParticles_index_sync box10 [example_particle 1 0 []] [simb.kUnknown]
              [example_dropped 1 0 []; example_dropped 7 1 []])
    as (s' & s1 & Hcall & _ & Hids & _); [done | by repeat constructor |].
  exists s'. split; [exact Hcall | exact Hids].
Defined.

(** ** The loop needs its fuel

    [AncestorTrackID] is not total: on records whose mother ids form a cycle
    the [while(1)] loop never leaves, whatever the number of turns allowed. *)
Lemma climb_mother_cycle (fuel : nat) :
  climb fuel mother_cycle 2 1 = OutOfFuel /\ climb fuel mother_cycle 1 0 = OutOfFuel.
Proof.
  assert (H21 : forall f, climb (S f) mother_cycle 2 1 = climb f mother_cycle 1 0).
  { intros f.
    change 2 with (TrackID (record_at mother_cycle 1)) at 1.
    rewrite (climb_up f mother_cycle 1 (record_at mother_cycle 1)).
    - replace (MotherTrackID mother_cycle 1) with 1 by (by vm_compute).
      by replace (TrackToParticleIndex mother_cycle 1) with 0 by (by vm_compute).
    - unfold indexed_record. split_and?; by vm_compute.
    - by vm_compute. }
  assert (H12 : forall f, climb (S f) mother_cycle 1 0 = climb f mother_cycle 2 1).
  { intros f.
    change 1 with (TrackID (record_at mother_cycle 0)) at 1.
    rewrite (climb_up f mother_cycle 0 (record_at mother_cycle 0)).
    - replace (MotherTrackID mother_cycle 0) with 2 by (by vm_compute).
      by replace (TrackToParticleIndex mother_cycle 2) with 1 by (by vm_compute).
    - unfold indexed_record. split_and?; by vm_compute.
    - by vm_compute. }
  induction fuel as [|fuel [IH2 IH1]]; [done |].
  by rewrite H21, H12.
Qed.

Lemma AncestorTrackID_mother_cycle (fuel : nat) :
  AncestorTrackID fuel mother_cycle 2 = OutOfFuel.
Proof.
  unfold AncestorTrackID.
  replace (size mother_cycle <=? 2) with false by (by vm_compute).
  replace (at_ mother_cycle 2) with (Some (record_at mother_cycle 2)) by (by vm_compute).
  replace (Ancestor (record_at mother_cycle 2)) with kINVALID_UINT by (by vm_compute).
  replace (MotherTrackID mother_cycle 2) with 2 by (by vm_compute).
  replace (TrackID (record_at mother_cycle 2)) with 3 by (by vm_compute).
  replace (TrackToParticleIndex mother_cycle 2) with 1 by (by vm_compute).
  simpl. by destruct (climb_mother_cycle fuel) as [-> _].
Qed.

(** * Further properties *)

(** ** The order of doubles *)

Lemma dlt_rank (x y : double) :
  is_nan x = false -> is_nan y = false ->
  dlt x y = true <-> lex_lt (rank x) (rank y).
Proof.
  unfold dlt, SFltb, lex_lt.
  destruct x as [sx|sx| |sx mx ex], y as [sy|sy| |sy my ey]; try done; intros _ _;
    try destruct sx; try destruct sy; simpl; try (split; [done | lia]);
    try (split; [lia | done]).
  - destruct (Z.compare_spec ex ey); simpl; try (split; [done | lia]);
      try (split; [lia | done]).
    change (Pos.compare_cont Eq mx my) with (Pos.compare mx my).
    destruct (Pos.compare_spec mx my); simpl; try (split; [done | lia]);
      split; intros; try done; lia.
  - destruct (Z.compare_spec ex ey); simpl; try (split; [done | lia]);
      try (split; [lia | done]).
    change (Pos.compare_cont Eq mx my) with (Pos.compare mx my).
    destruct (Pos.compare_spec mx my); simpl; try (split; [done | lia]);
      split; intros; try done; lia.
Qed.

Lemma dle_rank (x y : double) :
  is_nan x = false -> is_nan y = false ->
  dle x y = true <-> lex_le (rank x) (rank y).
Proof.
  intros Hx Hy. unfold lex_le. rewrite <- (dlt_rank y x) by done.
  change (dlt y x) with (dgt x y). rewrite dgt_not_dle by done.
  destruct (dle x y); simpl; split; try done; by intros [].
Qed.

Lemma lex_le_trans (a b c : Z * Z * Z) : lex_le a b -> lex_le b c -> lex_le a c.
Proof. destruct a as [[? ?] ?], b as [[? ?] ?], c as [[? ?] ?]. unfold lex_le, lex_lt. simpl. lia. Qed.

Lemma lex_lt_le (a b : Z * Z * Z) : lex_lt a b -> lex_le a b.
Proof. destruct a as [[? ?] ?], b as [[? ?] ?]. unfold lex_le, lex_lt. simpl. lia. Qed.

Lemma lex_le_refl (a : Z * Z * Z) : lex_le a a.
Proof. destruct a as [[? ?] ?]. unfold lex_le, lex_lt. simpl. lia. Qed.

(** [<=] on the doubles that are numbers is transitive. *)
Lemma dle_trans (x y z : double) :
  is_nan x = false -> is_nan y = false -> is_nan z = false ->
  dle x y = true -> dle y z = true -> dle x z = true.
Proof.
  intros Hx Hy Hz. rewrite !dle_rank by done. apply lex_le_trans.
Qed.

(** ** [std::min_element] and [std::max_element] on keys that are numbers *)

Section Extremum.

Context {A : Type} (key : A -> double).

Let comp (lhs rhs : A) : bool := dlt (key lhs) (key rhs).

Lemma dlt_false_dle (x y : double) :
  is_nan x = false -> is_nan y = false -> dlt x y = false -> dle y x = true.
Proof.
  intros Hx Hy H. rewrite (dlt_not_dle x y Hx Hy) in H. by apply negb_false_iff.
Qed.

Lemma dlt_true_dle (x y : double) :
  is_nan x = false -> is_nan y = false -> dlt x y = true -> dle x y = true.
Proof.
  intros Hx Hy. rewrite dlt_rank, dle_rank by done. apply lex_lt_le.
Qed.

Lemma fold_smallest (l : list A) (acc : A) :
  Forall (fun a => is_nan (key a) = false) (acc :: l) ->
  let b := fold_left (fun smallest y => if comp y smallest then y else smallest) l acc in
  b ∈ acc :: l /\ dle (key b) (key acc) = true /\
  forall y, y ∈ l -> dle (key b) (key y) = true.
Proof.
  revert acc. induction l as [|y l IH]; intros acc Hnum; simpl.
  - split; [by left |]. split; [apply dle_refl; by inversion Hnum |].
    intros y Hy. by inversion Hy.
  - apply Forall_cons in Hnum as [Hacc Hnum]. apply Forall_cons in Hnum as [Hy Hnum].
    unfold comp at 2 4 6.
    destruct (dlt (key y) (key acc)) eqn:Hlt.
    + destruct (IH y) as (Hin & Hle & Hall); [by constructor |].
      set (b := fold_left _ l y) in *.
      assert (is_nan (key b) = false) as Hb.
      { rewrite Forall_forall in Hnum. apply elem_of_cons in Hin as [->|Hin]; auto. }
      split; [by right |]. split.
      * apply (dle_trans _ (key y)); try done. by apply dlt_true_dle.
      * intros y' [->|Hy']%elem_of_cons; auto.
    + destruct (IH acc) as (Hin & Hle & Hall); [by constructor |].
      set (b := fold_left _ l acc) in *.
      assert (is_nan (key b) = false) as Hb.
      { rewrite Forall_forall in Hnum. apply elem_of_cons in Hin as [->|Hin]; auto. }
      split; [apply elem_of_cons in Hin as [->|Hin]; [by left | by right; right] |].
      split; [done |].
      intros y' [->|Hy']%elem_of_cons; auto.
      apply (dle_trans _ (key acc)); try done. by apply dlt_false_dle.
Qed.

Lemma fold_largest (l : list A) (acc : A) :
  Forall (fun a => is_nan (key a) = false) (acc :: l) ->
  let b := fold_left (fun largest y => if comp largest y then y else largest) l acc in
  b ∈ acc :: l /\ dle (key acc) (key b) = true /\
  forall y, y ∈ l -> dle (key y) (key b) = true.
Proof.
  revert acc. induction l as [|y l IH]; intros acc Hnum; simpl.
  - split; [by left |]. split; [apply dle_refl; by inversion Hnum |].
    intros y Hy. by inversion Hy.
  - apply Forall_cons in Hnum as [Hacc Hnum]. apply Forall_cons in Hnum as [Hy Hnum].
    unfold comp at 2 4 6.
    destruct (dlt (key acc) (key y)) eqn:Hlt.
    + destruct (IH y) as (Hin & Hle & Hall); [by constructor |].
      set (b := fold_left _ l y) in *.
      assert (is_nan (key b) = false) as Hb.
      { rewrite Forall_forall in Hnum. apply elem_of_cons in Hin as [->|Hin]; auto. }
      split; [by right |]. split.
      * apply (dle_trans _ (key y)); try done. by apply dlt_true_dle.
      * intros y' [->|Hy']%elem_of_cons; auto.
    + destruct (IH acc) as (Hin & Hle & Hall); [by constructor |].
      set (b := fold_left _ l acc) in *.
      assert (is_nan (key b) = false) as Hb.
      { rewrite Forall_forall in Hnum. apply elem_of_cons in Hin as [->|Hin]; auto. }
      split; [apply elem_of_cons in Hin as [->|Hin]; [by left | by right; right] |].
      split; [done |].
      intros y' [->|Hy']%elem_of_cons; auto.
      apply (dle_trans _ (key acc)); try done. by apply dlt_false_dle.
Qed.

(** The smallest element is an element, below every element. *)
Lemma min_element_spec (l : list A) :
  l <> [] -> Forall (fun a => is_nan (key a) = false) l ->
  exists b : A, min_element comp l = Some b /\ b ∈ l /\
    forall y, y ∈ l -> dle (key b) (key y) = true.
Proof.
  destruct l as [|x l]; [done |]. intros _ Hnum. eexists. split; [reflexivity |].
  destruct (fold_smallest l x Hnum) as (Hin & Hle & Hall). split; [done |].
  intros y [->|Hy]%elem_of_cons; auto.
Qed.

(** The largest element is an element, above every element. *)
Lemma max_element_spec (l : list A) :
  l <> [] -> Forall (fun a => is_nan (key a) = false) l ->
  exists b : A, max_element comp l = Some b /\ b ∈ l /\
    forall y, y ∈ l -> dle (key y) (key b) = true.
Proof.
  destruct l as [|x l]; [done |]. intros _ Hnum. eexists. split; [reflexivity |].
  destruct (fold_largest l x Hnum) as (Hin & Hle & Hall). split; [done |].
  intros y [->|Hy]%elem_of_cons; auto.
Qed.

End Extremum.

(** ** The constructor *)

Lemma pdg_list_fold (l : list Z) (acc : gset Z) (id : Z) :
  id ∈ fold_left (fun acc id => {[id]} ∪ acc) l acc <-> id ∈ l \/ id ∈ acc.
Proof.
  revert acc. induction l as [|x l IH]; intros acc; simpl.
  - split; [by right | by intros [H|H]; [inversion H |]].
  - rewrite IH, elem_of_cons, elem_of_union, elem_of_singleton. tauto.
Qed.

Lemma tpc_numeric_keys (tpcs : list geo.TPCGeo) :
  Forall tpc_is_numeric tpcs ->
  Forall (fun a => is_nan (geo.MinX a) = false) tpcs /\
  Forall (fun a => is_nan (geo.MaxX a) = false) tpcs /\
  Forall (fun a => is_nan (geo.MinY a) = false) tpcs /\
  Forall (fun a => is_nan (geo.MaxY a) = false) tpcs /\
  Forall (fun a => is_nan (geo.MinZ a) = false) tpcs /\
  Forall (fun a => is_nan (geo.MaxZ a) = false) tpcs.
Proof.
  intros H. split_and?; (eapply Forall_impl; [exact H |]);
    intros tpc (? & ? & ? & ? & ? & ?); done.
Qed.

(** The constructed object, by the six TPCs that give its bounds. *)
Lemma MCRecoPart_new_shape (SavePathPDGList : list Z) (tpcs : list geo.TPCGeo) :
  tpcs <> [] -> Forall tpc_is_numeric tpcs ->
  exists bx0 bx1 by0 by1 bz0 bz1 : geo.TPCGeo,
    (bx0 ∈ tpcs /\ forall t, t ∈ tpcs -> dle (geo.MinX bx0) (geo.MinX t) = true) /\
    (bx1 ∈ tpcs /\ forall t, t ∈ tpcs -> dle (geo.MaxX t) (geo.MaxX bx1) = true) /\
    (by0 ∈ tpcs /\ forall t, t ∈ tpcs -> dle (geo.MinY by0) (geo.MinY t) = true) /\
    (by1 ∈ tpcs /\ forall t, t ∈ tpcs -> dle (geo.MaxY t) (geo.MaxY by1) = true) /\
    (bz0 ∈ tpcs /\ forall t, t ∈ tpcs -> dle (geo.MinZ bz0) (geo.MinZ t) = true) /\
    (bz1 ∈ tpcs /\ forall t, t ∈ tpcs -> dle (geo.MaxZ t) (geo.MaxZ bz1) = true) /\
    MCRecoPart_new SavePathPDGList tpcs
    = Some (mkMCRecoPart [] ∅
              (fold_left (fun acc id => {[id]} ∪ acc) SavePathPDGList ∅)
              (geo.MinX bx0) (geo.MaxX bx1) (geo.MinY by0) (geo.MaxY by1)
              (geo.MinZ bz0) (geo.MaxZ bz1)).
Proof.
  intros Hne Hnum.
  destruct (tpc_numeric_keys tpcs Hnum) as (Nx0 & Nx1 & Ny0 & Ny1 & Nz0 & Nz1).
  destruct (min_element_spec geo.MinX tpcs Hne Nx0) as (bx0 & Ex0 & Ix0 & Lx0).
  destruct (min_element_spec geo.MinY tpcs Hne Ny0) as (by0 & Ey0 & Iy0 & Ly0).
  destruct (min_element_spec geo.MinZ tpcs Hne Nz0) as (bz0 & Ez0 & Iz0 & Lz0).
  destruct (max_element_spec geo.MaxX tpcs Hne Nx1) as (bx1 & Ex1 & Ix1 & Lx1).
  destruct (max_element_spec geo.MaxY tpcs Hne Ny1) as (by1 & Ey1 & Iy1 & Ly1).
  destruct (max_element_spec geo.MaxZ tpcs Hne Nz1) as (bz1 & Ez1 & Iz1 & Lz1).
  exists bx0, bx1, by0, by1, bz0, bz1. split_and?; try done.
  unfold MCRecoPart_new, geo.BoundingBox.
  by rewrite Ex0, Ey0, Ez0, Ex1, Ey1, Ez1.
Qed.

(** X1: with at least one TPC, all of numeric bounds, the constructor gives
    an object without records and without index entries, whose species set
    holds exactly the configured codes, and whose box has numeric bounds,
    each the bound of some TPC, that enclose the bounding box of every TPC. *)
Theorem MCRecoPart_new_encloses (SavePathPDGList : list Z) (tpcs : list geo.TPCGeo) :
  tpcs <> [] -> Forall tpc_is_numeric tpcs ->
  exists s : MCRecoPart,
    MCRecoPart_new SavePathPDGList tpcs = Some s /\
    parts s = [] /\ _track_index s = ∅ /\
    (forall id : Z, id ∈ _pdg_list s <-> id ∈ SavePathPDGList) /\
    box_is_numeric s /\
    (forall tpc, tpc ∈ tpcs ->
       (dle (_x_min s) (geo.MinX tpc) = true /\ dle (geo.MaxX tpc) (_x_max s) = true) /\
       (dle (_y_min s) (geo.MinY tpc) = true /\ dle (geo.MaxY tpc) (_y_max s) = true) /\
       (dle (_z_min s) (geo.MinZ tpc) = true /\ dle (geo.MaxZ tpc) (_z_max s) = true)) /\
    (exists tpc, tpc ∈ tpcs /\ _x_min s = geo.MinX tpc) /\
    (exists tpc, tpc ∈ tpcs /\ _x_max s = geo.MaxX tpc) /\
    (exists tpc, tpc ∈ tpcs /\ _y_min s = geo.MinY tpc) /\
    (exists tpc, tpc ∈ tpcs /\ _y_max s = geo.MaxY tpc) /\
    (exists tpc, tpc ∈ tpcs /\ _z_min s = geo.MinZ tpc) /\
    (exists tpc, tpc ∈ tpcs /\ _z_max s = geo.MaxZ tpc).
Proof.
  intros Hne Hnum.
  pose proof Hnum as Htpc. rewrite Forall_forall in Htpc.
  destruct (MCRecoPart_new_shape SavePathPDGList tpcs Hne Hnum)
    as (bx0 & bx1 & by0 & by1 & bz0 & bz1 & (Ix0 & Lx0) & (Ix1 & Lx1) & (Iy0 & Ly0)
        & (Iy1 & Ly1) & (Iz0 & Lz0) & (Iz1 & Lz1) & ->).
  eexists. split; [reflexivity |]. simpl. split_and?; try done.
  - intros id. rewrite pdg_list_fold. split; [intros [H|H]; [done | by inversion H] | auto].
  - unfold box_is_numeric. simpl.
    split_and?; [apply (Htpc bx0 Ix0) | apply (Htpc bx1 Ix1) | apply (Htpc by0 Iy0)
                | apply (Htpc by1 Iy1) | apply (Htpc bz0 Iz0) | apply (Htpc bz1 Iz1)].
  - intros tpc Htpcin. split_and?; auto.
  - by exists bx0.
  - by exists bx1.
  - by exists by0.
  - by exists by1.
  - by exists bz0.
  - by exists bz1.
Qed.

Lemma example_tpcs_numeric : Forall tpc_is_numeric example_tpcs.
Proof. repeat constructor. Qed.

Lemma MCRecoPart_new_encloses_witness :
  exists s : MCRecoPart,
    MCRecoPart_new [13; -13] example_tpcs = Some s /\ box_is_numeric s.
Proof.
  destruct (MCRecoPart_new_encloses [13; -13] example_tpcs)
    as (s & Hs & _ & _ & _ & Hbox & _); [done | exact example_tpcs_numeric |].
  exists s. split; [exact Hs | exact Hbox].
Defined.

(** X2: a point of numeric coordinates that lies in the bounding box of
    some TPC is inside the detector of the constructed object. *)
Theorem MCRecoPart_new_InDetector (SavePathPDGList : list Z) (tpcs : list geo.TPCGeo)
    (s : MCRecoPart) (tpc : geo.TPCGeo) (x y z : double) :
  Forall tpc_is_numeric tpcs ->
  MCRecoPart_new SavePathPDGList tpcs = Some s ->
  tpc ∈ tpcs ->
  is_nan x = false -> is_nan y = false -> is_nan z = false ->
  in_tpc_box tpc x y z ->
  InDetector s x y z = true.
Proof.
  intros Hnum Hs Htpc Hx Hy Hz ((Hx0 & Hx1) & (Hy0 & Hy1) & (Hz0 & Hz1)).
  assert (tpcs <> []) as Hne by (intros ->; inversion Htpc).
  pose proof Hnum as Hall. rewrite Forall_forall in Hall.
  destruct (MCRecoPart_new_shape SavePathPDGList tpcs Hne Hnum)
    as (bx0 & bx1 & by0 & by1 & bz0 & bz1 & (Ix0 & Lx0) & (Ix1 & Lx1) & (Iy0 & Ly0)
        & (Iy1 & Ly1) & (Iz0 & Lz0) & (Iz1 & Lz1) & Hshape).
  rewrite Hshape in Hs. injection Hs as <-.
  destruct (Hall tpc Htpc) as (Tx0 & Tx1 & Ty0 & Ty1 & Tz0 & Tz1).
  destruct (Hall bx0 Ix0) as (Bx0 & _). destruct (Hall bx1 Ix1) as (_ & Bx1 & _).
  destruct (Hall by0 Iy0) as (_ & _ & By0 & _). destruct (Hall by1 Iy1) as (_ & _ & _ & By1 & _).
  destruct (Hall bz0 Iz0) as (_ & _ & _ & _ & Bz0 & _).
  destruct (Hall bz1 Iz1) as (_ & _ & _ & _ & _ & Bz1).
  apply InDetector_unfold. simpl.
  rewrite !dgt_not_dle, !dlt_not_dle, !negb_false_iff by done.
  split_and?.
  - by apply (dle_trans _ (geo.MaxX tpc)); auto.
  - by apply (dle_trans _ (geo.MinX tpc)); auto.
  - by apply (dle_trans _ (geo.MaxY tpc)); auto.
  - by apply (dle_trans _ (geo.MinY tpc)); auto.
  - by apply (dle_trans _ (geo.MaxZ tpc)); auto.
  - by apply (dle_trans _ (geo.MinZ tpc)); auto.
Qed.

Lemma MCRecoPart_new_InDetector_witness :
  exists s : MCRecoPart,
    MCRecoPart_new [13] example_tpcs = Some s /\ InDetector s d20 d5 d5 = true.
Proof.
  eexists. split; [reflexivity |].
  apply (MCRecoPart_new_InDetector [13] example_tpcs _
           (geo.mkTPCGeo d10 d20 d0 d10 d0 d10) d20 d5 d5);
    [exact example_tpcs_numeric | reflexivity | by right; left | done..
    | repeat split; reflexivity].
Defined.

(** ** [AddParticles]: what is replaced and what is kept *)

(** The ingested state is determined by its keys, its records and the
    configuration. *)
Lemma ingested_unique (s0 s1 s2 : MCRecoPart) (keys : list Z) (recs : list MCMiniPart) :
  ingested s0 s1 keys recs -> ingested s0 s2 keys recs -> s1 = s2.
Proof.
  intros (P1 & _ & I1 & C1) (P2 & _ & I2 & C2).
  destruct s1 as [p1 i1 g1 ? ? ? ? ? ?], s2 as [p2 i2 g2 ? ? ? ? ? ?]. simpl in *.
  destruct C1 as (? & ? & ? & ? & ? & ? & ?). destruct C2 as (? & ? & ? & ? & ? & ? & ?).
  f_equal; try congruence. apply map_eq. intros k. by rewrite I1, I2.
Qed.

Lemma ingested_config (s0 s0' s : MCRecoPart) (keys0 keys : list Z)
    (recs0 recs : list MCMiniPart) :
  ingested s0 s0' keys0 recs0 -> ingested s0' s keys recs -> ingested s0 s keys recs.
Proof.
  intros (_ & _ & _ & C0) (P & L & I & C).
  destruct C as (? & ? & ? & ? & ? & ? & ?). destruct C0 as (? & ? & ? & ? & ? & ? & ?).
  unfold ingested. split_and?; congruence.
Qed.

(** X3: an ingestion replaces whatever an earlier ingestion left, and keeps
    the configuration: the call on the state an earlier call returned gives
    what the call on the original object gives, and the species set and the
    answers of [InDetector] are those of the original object. *)
Theorem AddParticles_replaces (s s1 : MCRecoPart)
    (mcp_v0 mcp_v : list simb.MCParticle) (orig_v0 orig_v : list simb.Origin_t)
    (mcmp_v0 mcmp_v : list MCMiniPart) :
  AddParticles s mcp_v0 orig_v0 mcmp_v0 = Returns tt s1 ->
  length orig_v = length mcp_v ->
  AddParticles s1 mcp_v orig_v mcmp_v = AddParticles s mcp_v orig_v mcmp_v /\
  _pdg_list s1 = _pdg_list s /\
  (forall x y z, InDetector s1 x y z = InDetector s x y z).
Proof.
  intros H0 Hlen.
  assert (length orig_v0 = length mcp_v0) as Hlen0.
  { unfold AddParticles in H0.
    by destruct (Nat.eqb_spec (length orig_v0) (length mcp_v0)). }
  destruct (AddParticles_ingested s mcp_v0 orig_v0 mcmp_v0 Hlen0) as (s1' & E1 & Hing1).
  assert (s1' = s1) as -> by congruence.
  pose proof Hing1 as (_ & _ & _ & Hpdg & Hx0 & Hx1 & Hy0 & Hy1 & Hz0 & Hz1).
  destruct (AddParticles_ingested s mcp_v orig_v mcmp_v Hlen) as (sa & Ea & Hinga).
  destruct (AddParticles_ingested s1 mcp_v orig_v mcmp_v Hlen) as (sb & Eb & Hingb).
  split; [| split; [done |]].
  - rewrite Ea, Eb. f_equal.
    apply (ingested_config s s1 _ _ _ _ _ Hing1) in Hingb.
    replace ((fun mo => mini_of s1 mo.1 mo.2) <$> combine mcp_v orig_v)
      with ((fun mo => mini_of s mo.1 mo.2) <$> combine mcp_v orig_v) in Hingb.
    + by apply (ingested_unique s sb sa _ _ Hingb Hinga).
    + apply list_fmap_ext. intros i mo _. symmetry. by apply mini_of_config.
  - intros x y z. unfold InDetector. by rewrite Hx0, Hx1, Hy0, Hy1, Hz0, Hz1.
Qed.

Lemma AddParticles_replaces_witness :
  AddParticles chain5 [example_particle 9 0 []] [simb.kUnknown] []
  = AddParticles box10 [example_particle 9 0 []] [simb.kUnknown] [].
Proof.
  apply (AddParticles_replaces box10 chain5
           [example_particle 1 0 [2]; example_particle 2 1 [3]; example_particle 3 2 [4];
            example_particle 4 3 [5]; example_particle 5 4 []]
           [example_particle 9 0 []] (repeat simb.kUnknown 5) [simb.kUnknown] [] []);
    [by vm_compute | done].
Defined.

(** ** [AddParticles]: the record of an input particle *)

Lemma add_daughters_fields (f : nat -> Z) (l : list nat) (m : MCMiniPart) :
  let m' := fold_left (fun m i => AddDaughter (f i) m) l m in
  (forall d, d ∈ _daughters m' <-> d ∈ f <$> l \/ d ∈ _daughters m) /\
  _track_id m' = _track_id m /\ _pdgcode m' = _pdgcode m /\ _mother m' = _mother m /\
  _ancestor m' = _ancestor m /\ _process m' = _process m /\
  _start_vtx m' = _start_vtx m /\ _start_mom m' = _start_mom m /\
  _end_vtx m' = _end_vtx m /\ _end_mom m' = _end_mom m /\ _origin m' = _origin m.
Proof.
  revert m. induction l as [|i l IH]; intros m; simpl.
  - split_and?; try done. intros d. rewrite elem_of_nil. tauto.
  - destruct (IH (AddDaughter (f i) m)) as (Hd & Hrest). split; [| exact Hrest].
    intros d. rewrite Hd. simpl. rewrite elem_of_cons, elem_of_union, elem_of_singleton.
    tauto.
Qed.

Lemma daughters_by_index (ds : list Z) (d : Z) :
  d ∈ (fun i => to_uint (nth i ds 0)) <$> seq 0 (length ds) <->
  exists d0 : Z, d0 ∈ ds /\ d = to_uint d0.
Proof.
  rewrite list_elem_of_fmap. split.
  - intros (i & -> & Hi%elem_of_seq). exists (nth i ds 0). split; [| done].
    apply list_elem_of_In, nth_In. lia.
  - intros (d0 & Hd0 & ->). apply list_elem_of_In in Hd0.
    destruct (In_nth ds d0 0 Hd0) as (i & Hi & <-). exists i. split; [done |].
    apply elem_of_seq. lia.
Qed.

(** The fields of the record built for an input particle. *)
Lemma mini_of_fields (s : MCRecoPart) (mcp : simb.MCParticle) (orig : simb.Origin_t) :
  let rec := mini_of s mcp orig in
  Mother rec = to_uint (simb.Mother mcp) /\
  _pdgcode rec = simb.PdgCode mcp /\
  _process rec = simb.Process mcp /\
  _origin rec = orig /\
  Ancestor rec = kINVALID_UINT /\
  (forall d : Z, HasDaughter rec d = true <->
     exists d0 : Z, d0 ∈ simb.Daughters mcp /\ d = to_uint d0) /\
  _start_vtx rec = simb.Position mcp 0 /\
  _end_vtx rec = simb.EndPosition mcp /\
  _start_mom rec = scale d1e3 (simb.Momentum mcp 0) /\
  _end_mom rec = scale d1e3 (simb.EndMomentum mcp).
Proof.
  destruct (add_daughters_fields (fun i => to_uint (simb.Daughter mcp i))
              (seq 0 (simb.NumberDaughters mcp)) MCMiniPart_new)
    as (Hd & _ & _ & _ & Hanc & _).
  unfold simb.Daughter, simb.NumberDaughters in Hd.
  setoid_rewrite daughters_by_index in Hd.
  unfold mini_of, HasDaughter, Ancestor, Mother, simb.Daughter, simb.NumberDaughters.
  destruct (det_path_index s mcp); simpl; (split_and?; try done);
    intros d; rewrite bool_decide_eq_true, Hd; simpl;
    rewrite elem_of_empty; tauto.
Qed.

Lemma lookup_combine {A B : Type} (l : list A) (l' : list B) (i : nat) (x : A) (y : B) :
  l !! i = Some x -> l' !! i = Some y -> combine l l' !! i = Some (x, y).
Proof.
  revert l' i. induction l as [|a l IH]; intros [|b l'] [|i]; simpl; try done.
  - by intros [= ->] [= ->].
  - apply IH.
Qed.

(** X4: the record at position [i] after an ingestion is built from
    [mcp_v[i]] and [orig_v[i]]: the unsigned casts of the track id and of the
    mother id, the species, the process, the origin of the same position,
    the set of the unsigned casts of the daughters, the first and last
    trajectory positions, the first and last momenta scaled by [1.e3], and
    an unset ancestor cache. *)
Theorem AddParticles_record (s : MCRecoPart) (mcp_v : list simb.MCParticle)
    (orig_v : list simb.Origin_t) (mcmp_v : list MCMiniPart)
    (i : nat) (mcp : simb.MCParticle) (orig : simb.Origin_t) :
  length orig_v = length mcp_v ->
  mcp_v !! i = Some mcp -> orig_v !! i = Some orig ->
  exists (s' : MCRecoPart) (rec : MCMiniPart),
    AddParticles s mcp_v orig_v mcmp_v = Returns tt s' /\
    parts s' !! i = Some rec /\
    TrackID rec = to_uint (simb.TrackId mcp) /\
    Mother rec = to_uint (simb.Mother mcp) /\
    _pdgcode rec = simb.PdgCode mcp /\
    _process rec = simb.Process mcp /\
    _origin rec = orig /\
    Ancestor rec = kINVALID_UINT /\
    (forall d : Z, HasDaughter rec d = true <->
       exists d0 : Z, d0 ∈ simb.Daughters mcp /\ d = to_uint d0) /\
    _start_vtx rec = simb.Position mcp 0 /\
    _end_vtx rec = simb.EndPosition mcp /\
    _start_mom rec = scale d1e3 (simb.Momentum mcp 0) /\
    _end_mom rec = scale d1e3 (simb.EndMomentum mcp).
Proof.
  intros Hlen Hmcp Horig.
  destruct (AddParticles_ingested s mcp_v orig_v mcmp_v Hlen) as (s' & Hcall & Hparts & _).
  exists s', (mini_of s mcp orig). split; [done |]. split.
  - rewrite Hparts, lookup_app_l.
    + by rewrite list_lookup_fmap, (lookup_combine _ _ _ _ _ Hmcp Horig).
    + rewrite length_fmap, length_combine. apply lookup_lt_Some in Hmcp. lia.
  - split; [apply mini_of_TrackID | apply mini_of_fields].
Qed.

Lemma AddParticles_record_witness :
  exists (s' : MCRecoPart) (rec : MCMiniPart),
    AddParticles box10 [example_particle 1 0 [2]; example_particle (-2) 1 []]
      [simb.kCosmicRay; simb.kBeamNeutrino] [] = Returns tt s' /\
    parts s' !! 1%nat = Some rec /\ TrackID rec = 4294967294 /\ Mother rec = 1 /\
    _origin rec = simb.kBeamNeutrino.
Proof.
  destruct (AddParticles_record box10
              [example_particle 1 0 [2]; example_particle (-2) 1 []]
              [simb.kCosmicRay; simb.kBeamNeutrino] [] 1
              (example_particle (-2) 1 []) simb.kBeamNeutrino)
    as (s' & rec & Hcall & Hrec & Hid & Hmother & _ & _ & Horigin & _); [done.. |].
  exists s', rec. split_and?; [exact Hcall | exact Hrec | exact Hid | exact Hmother
                              | exact Horigin].
Defined.

(** ** [AncestorTrackID] on a forest *)

Lemma lineage_indexed (s : MCRecoPart) (p root : Z) (n : nat) :
  lineage s p root n -> exists rec : MCMiniPart, indexed_record s p rec.
Proof. destruct 1; eauto. Qed.

(** No record of a lineage names itself as mother. *)
Lemma lineage_not_own_mother (s : MCRecoPart) (p root : Z) (n : nat) (rec : MCMiniPart) :
  lineage s p root n -> indexed_record s p rec -> Mother rec <> TrackID rec.
Proof.
  intros Hlin. revert rec.
  induction Hlin as [p rec0 Hrec0 Hprimary | p pm rec0 rm root n Hrec0 Hrm Hmother Hlin IH];
    intros rec Hrec.
  - destruct (indexed_record_inj s p p rec0 rec Hrec0 Hrec) as [_ ->].
    + destruct Hrec0 as (_ & _ & Ha & _), Hrec as (_ & _ & Hb & _). congruence.
    + destruct Hrec as (_ & _ & _ & Hnz & _). congruence.
  - assert (rec0 = rec) as ->.
    { destruct Hrec0 as (_ & _ & Ha & _), Hrec as (_ & _ & Hb & _). congruence. }
    intros Hown. rewrite Hmother in Hown.
    destruct (indexed_record_inj s pm p rm rec Hrm Hrec Hown) as [-> ->].
    apply (IH rec Hrec). congruence.
Qed.

Lemma climb_lineage (s : MCRecoPart) (p root : Z) (n : nat) :
  lineage s p root n ->
  forall (rec : MCMiniPart) (fuel : nat), indexed_record s p rec ->
    climb (S n + fuel) s (TrackID rec) p = Returns root s.
Proof.
  induction 1 as [p rec0 Hrec0 Hprimary | p pm rec0 rm root n Hrec0 Hrm Hmother Hlin IH];
    intros rec fuel Hrec.
  - assert (rec0 = rec) as ->.
    { destruct Hrec0 as (_ & _ & Ha & _), Hrec as (_ & _ & Hb & _). congruence. }
    by apply climb_top.
  - assert (rec0 = rec) as ->.
    { destruct Hrec0 as (_ & _ & Ha & _), Hrec as (_ & _ & Hb & _). congruence. }
    pose proof (MotherTrackID_indexed s p pm rec rm Hrec Hrm Hmother) as Hm.
    change (S (S n) + fuel)%nat with (S (S n + fuel)).
    rewrite (climb_up _ s p rec Hrec); rewrite Hm.
    + replace (TrackToParticleIndex s (TrackID rm)) with pm
        by (by destruct Hrm as (_ & _ & _ & _ & ->)).
      by apply IH.
    + eapply child_id_differs; eauto.
      eapply lineage_not_own_mother; eauto.
Qed.

(** X6: for a record that descends from a primary through [n] indexed
    mothers, the first ancestor query returns the primary's track id as soon
    as [n] turns of the loop are allowed. For the primary itself ([n = 0])
    the object is returned as it was. Otherwise the answer is written to the
    ancestor cache of the queried record: after the call the record at the
    position is the former one with its ancestor set to the primary's track
    id, and the records at the other positions are the former ones. *)
Theorem AncestorTrackID_lineage (s : MCRecoPart) (p root : Z) (n fuel : nat)
    (rec : MCMiniPart) :
  lineage s p root n ->
  at_ s p = Some rec -> Ancestor rec = kINVALID_UINT -> (n <= fuel)%nat ->
  exists s' : MCRecoPart,
    AncestorTrackID fuel s p = Returns root s' /\
    match n with
    | O => s' = s
    | S _ =>
        s' = cache_ancestor p root s /\
        at_ s' p = Some (set_Ancestor root rec) /\
        Ancestor <$> at_ s' p = Some root /\
        forall j : nat, j <> Z.to_nat p -> parts s' !! j = parts s !! j
    end.
Proof.
  intros Hlin Hat Hanc Hfuel.
  destruct Hlin as [p rec0 Hrec0 Hprimary | p pm rec0 rm root n Hrec0 Hrm Hmother Hlin].
  - assert (rec0 = rec) as ->
      by (destruct Hrec0 as (_ & _ & Ha & _); congruence).
    pose proof (MotherTrackID_primary s p rec Hrec0 Hprimary) as Hm.
    destruct (indexed_record_in_range s p rec Hrec0) as [H0 Hlt].
    exists s. split; [| done].
    unfold AncestorTrackID. destruct (Z.leb_spec (size s) p); [lia |].
    rewrite Hat, Hanc, Z.eqb_refl, Hm, Z.eqb_refl. done.
  - assert (rec0 = rec) as ->
      by (destruct Hrec0 as (_ & _ & Ha & _); congruence).
    pose proof (MotherTrackID_indexed s p pm rec rm Hrec0 Hrm Hmother) as Hm.
    destruct Hrec0 as (H0 & Hrest). pose proof (conj H0 Hrest) as Hrec.
    exists (cache_ancestor p root s). split.
    + apply AncestorTrackID_climb with (rec := rec); try done; rewrite Hm.
      * eapply child_id_differs; eauto.
        destruct (lineage_indexed s pm root n Hlin) as [rm' Hrm'].
        eapply lineage_not_own_mother; eauto.
      * by destruct Hrm as (_ & _ & _ & ? & _).
      * replace (TrackToParticleIndex s (TrackID rm)) with pm
          by (by destruct Hrm as (_ & _ & _ & _ & ->)).
        replace fuel with (S n + (fuel - S n))%nat by lia.
        by apply climb_lineage.
    + split; [done |]. rewrite cache_ancestor_at, Hat. split; [done |]. split; [done |].
      intros j Hj. by apply cache_ancestor_other.
Qed.

Lemma chain5_lineage :
  lineage chain5 4 (TrackID (record_at chain5 0)) 4.
Proof.
  assert (forall i : nat, (i < 5)%nat ->
            indexed_record chain5 (Z.of_nat i) (record_at chain5 i)) as Hrec.
  { intros i Hi. destruct i as [|[|[|[|[|i]]]]]; try lia;
      unfold indexed_record; split_and?; by vm_compute. }
  apply (lineage_child chain5 4 3 (record_at chain5 4) (record_at chain5 3));
    [apply (Hrec 4%nat); lia | apply (Hrec 3%nat); lia | by vm_compute |].
  apply (lineage_child chain5 3 2 (record_at chain5 3) (record_at chain5 2));
    [apply (Hrec 3%nat); lia | apply (Hrec 2%nat); lia | by vm_compute |].
  apply (lineage_child chain5 2 1 (record_at chain5 2) (record_at chain5 1));
    [apply (Hrec 2%nat); lia | apply (Hrec 1%nat); lia | by vm_compute |].
  apply (lineage_child chain5 1 0 (record_at chain5 1) (record_at chain5 0));
    [apply (Hrec 1%nat); lia | apply (Hrec 0%nat); lia | by vm_compute |].
  apply (lineage_primary chain5 0 (record_at chain5 0));
    [apply (Hrec 0%nat); lia | by vm_compute].
Qed.

Lemma AncestorTrackID_lineage_witness :
  exists s' : MCRecoPart,
    AncestorTrackID 4 chain5 4 = Returns (TrackID (record_at chain5 0)) s' /\
    Ancestor <$> at_ s' 4 = Some (TrackID (record_at chain5 0)).
Proof.
  destruct (AncestorTrackID_lineage chain5 4 (TrackID (record_at chain5 0)) 4 4
              (record_at chain5 4) chain5_lineage)
    as (s' & Hcall & _ & _ & Hcache & _); [by vm_compute | by vm_compute | lia |].
  exists s'. split; [exact Hcall | exact Hcache].
Defined.

(** ** What the index of an ingestion guarantees to the queries *)

Lemma first_position_lt (k : Z) (keys : list Z) (i : nat) :
  first_position k keys = Some i -> (i < length keys)%nat.
Proof. intros [Hi _]%first_position_Some. by eapply lookup_lt_Some. Qed.

Lemma ingested_index_in_range (s0 s : MCRecoPart) (keys : list Z) (recs : list MCMiniPart) :
  ingested s0 s keys recs -> index_in_range s.
Proof.
  intros (Hparts & Hlen & Hidx & _) k p Hp. rewrite Hidx in Hp.
  destruct (first_position k keys) as [i|] eqn:Hpos; [| done].
  injection Hp as <-. apply first_position_lt in Hpos.
  unfold size. rewrite Hparts, <- Hlen. lia.
Qed.

Lemma index_in_range_at (s : MCRecoPart) (r : Z) :
  index_in_range s -> TrackToParticleIndex s r <> kINVALID_UINT ->
  is_Some (at_ s (TrackToParticleIndex s r)).
Proof.
  intros Hrange. unfold TrackToParticleIndex.
  destruct (_track_index s !! r) as [p|] eqn:Hp; [| done].
  intros _. apply at_lookup. by apply (Hrange r).
Qed.

Lemma climb_no_throw (fuel : nat) (s s' : MCRecoPart) (result : Z) (e : exn) :
  index_in_range s ->
  climb fuel s result (TrackToParticleIndex s result) <> Throws e s'.
Proof.
  intros Hrange. revert result. induction fuel as [|fuel IH]; intros result; [done |].
  simpl. destruct (Z.eqb_spec (TrackToParticleIndex s result) kINVALID_UINT) as [Hinv|Hinv].
  - rewrite Hinv at 1. simpl.
    destruct (daughter_scan s result =? result); [done | apply IH].
  - simpl. destruct (index_in_range_at s result Hrange Hinv) as [m ->].
    destruct (MotherTrackID s _ =? TrackID m); [done | apply IH].
Qed.

Lemma cache_ancestor_index_in_range (s : MCRecoPart) (p r : Z) :
  index_in_range s -> index_in_range (cache_ancestor p r s).
Proof.
  intros H k q Hq. unfold size, cache_ancestor. simpl. rewrite length_alter.
  by apply (H k q).
Qed.

(** X7: on the state an ingestion returns, an ancestor query never throws,
    whatever the position and the number of turns allowed, and neither does
    a query on the state a first query returns: every position the index
    holds is a position of the collection. *)
Theorem AncestorTrackID_no_throw (s s' : MCRecoPart) (mcp_v : list simb.MCParticle)
    (orig_v : list simb.Origin_t) (mcmp_v : list MCMiniPart) :
  AddParticles s mcp_v orig_v mcmp_v = Returns tt s' ->
  index_in_range s' /\
  (forall (fuel : nat) (p : Z) (e : exn) (s'' : MCRecoPart),
     0 <= p -> AncestorTrackID fuel s' p <> Throws e s'') /\
  (forall (fuel fuel' : nat) (p q r : Z) (e : exn) (s1 s2 : MCRecoPart),
     0 <= q -> AncestorTrackID fuel s' p = Returns r s1 ->
     AncestorTrackID fuel' s1 q <> Throws e s2).
Proof.
  intros Hcall.
  assert (length orig_v = length mcp_v) as Hlen.
  { unfold AddParticles in Hcall.
    by destruct (Nat.eqb_spec (length orig_v) (length mcp_v)). }
  destruct (AddParticles_ingested s mcp_v orig_v mcmp_v Hlen) as (s0 & E & Hing).
  assert (s0 = s') as -> by congruence.
  pose proof (ingested_index_in_range _ _ _ _ Hing) as Hrange.
  assert (Hno : forall (t : MCRecoPart) (fuel : nat) (p : Z) (e : exn) (t' : MCRecoPart),
            index_in_range t -> 0 <= p -> AncestorTrackID fuel t p <> Throws e t').
  { intros t fuel p e t' Ht Hp. unfold AncestorTrackID.
    destruct (Z.leb_spec (size t) p); [done |].
    destruct (at_lookup t p ltac:(lia)) as [rec ->].
    destruct (negb (Ancestor rec =? kINVALID_UINT)); [done |].
    destruct (MotherTrackID t p =? TrackID rec); [done |].
    destruct (MotherTrackID t p =? 0); [done |].
    destruct (climb fuel t _ _) as [| e0 t0 |] eqn:Hc; [done | | done].
    intros _. by apply (climb_no_throw fuel t t0 (MotherTrackID t p) e0 Ht). }
  split; [done |]. split; [by eauto |].
  intros fuel fuel' p q r e s1 s2 Hq H1.
  apply Hno; [| done].
  apply AncestorTrackID_Returns in H1
    as [(_ & _ & ->) | (rec & _ & _ & [(_ & _ & ->) | [(_ & _ & _ & ->) | (_ & _ & _ & _ & ->)]])];
    auto using cache_ancestor_index_in_range.
Qed.

Lemma AncestorTrackID_no_throw_witness : index_in_range chain5_without_3.
Proof.
  apply (AncestorTrackID_no_throw box10 chain5_without_3
           [example_particle 1 0 [2]; example_particle 2 1 [3];
            example_particle 4 3 [5]; example_particle 5 4 []]
           (repeat simb.kUnknown 4) []).
  by vm_compute.
Defined.

(** ** Where the climb stops *)

Lemma climb_stops_at_top (fuel : nat) (s s' : MCRecoPart) (result r : Z) :
  climb fuel s result (TrackToParticleIndex s result) = Returns r s' ->
  climb_top_id s r.
Proof.
  revert result. induction fuel as [|fuel IH]; intros result; [done |]. simpl.
  destruct (Z.eqb_spec (TrackToParticleIndex s result) kINVALID_UINT) as [Hinv|Hinv].
  - rewrite Hinv at 1. simpl.
    destruct (Z.eqb_spec (daughter_scan s result) result) as [Hscan|Hscan]; [| apply IH].
    intros [= <- _]. right. rewrite Hscan. by split.
  - simpl. destruct (at_ s (TrackToParticleIndex s result)) as [m|] eqn:Hm; [| done].
    destruct (Z.eqb_spec (MotherTrackID s (TrackToParticleIndex s result)) (TrackID m))
      as [Hown|Hown]; [| apply IH].
    intros [= <- _]. left. split; [done |]. by exists m.
Qed.

(** X8: the value of a first ancestor query is the particle's own track id
    (when [MotherTrackID] answers that id, or 0), or an id at which the climb
    stops: one the index resolves to a record that [MotherTrackID] calls its
    own mother, or one the index does not resolve and that the first record
    listing it as a daughter, if any, bears itself. *)
Theorem AncestorTrackID_result (fuel : nat) (s s' : MCRecoPart) (p r : Z)
    (rec : MCMiniPart) :
  0 <= p -> at_ s p = Some rec -> Ancestor rec = kINVALID_UINT ->
  AncestorTrackID fuel s p = Returns r s' ->
  (r = TrackID rec /\ (MotherTrackID s p = TrackID rec \/ MotherTrackID s p = 0)) \/
  (MotherTrackID s p <> TrackID rec /\ MotherTrackID s p <> 0 /\ climb_top_id s r).
Proof.
  intros Hp Hat Hanc H. pose proof (at_in_range s p rec Hp Hat) as Hlt.
  apply AncestorTrackID_Returns in H
    as [(Hge & -> & _) | (rec' & _ & Hat' & [(Hset & _) | [(_ & Hself & -> & _) |
          (_ & Hself & Hzero & Hclimb & _)]])].
  - lia.
  - congruence.
  - left. assert (rec' = rec) as -> by congruence. done.
  - right. split_and?; [congruence.. |].
    by eapply climb_stops_at_top.
Qed.

Lemma AncestorTrackID_result_witness :
  climb_top_id chain5_without_3 1.
Proof.
  destruct (AncestorTrackID_result 4 chain5_without_3 (cache_ancestor 3 1 chain5_without_3)
              3 1 (record_at chain5_without_3 3))
    as [[H _] | (_ & _ & H)]; [lia | by vm_compute.. | | exact H].
  exfalso. by vm_compute in H.
Defined.

(** ** Queries do not disturb one another *)

Lemma find_daughter_alter (d r : Z) (i : nat) (l : list MCMiniPart) :
  TrackID <$> List.find (fun p => HasDaughter p d) (alter (set_Ancestor r) i l)
  = TrackID <$> List.find (fun p => HasDaughter p d) l.
Proof.
  revert i. induction l as [|a l IH]; intros [|i]; simpl; try done.
  - change (HasDaughter (set_Ancestor r a) d) with (HasDaughter a d).
    by destruct (HasDaughter a d).
  - destruct (HasDaughter a d); [done | apply IH].
Qed.

Lemma cache_ancestor_size (s : MCRecoPart) (p r : Z) :
  size (cache_ancestor p r s) = size s.
Proof. unfold size, cache_ancestor. simpl. by rewrite length_alter. Qed.

Lemma cache_ancestor_at_ids (s : MCRecoPart) (p r q : Z) :
  TrackID <$> at_ (cache_ancestor p r s) q = TrackID <$> at_ s q /\
  Mother <$> at_ (cache_ancestor p r s) q = Mother <$> at_ s q.
Proof.
  unfold at_, cache_ancestor. simpl.
  destruct (decide (Z.to_nat p = Z.to_nat q)) as [->|Hne].
  - rewrite list_lookup_alter_eq. by destruct (parts s !! Z.to_nat q).
  - by rewrite list_lookup_alter_ne.
Qed.

Lemma cache_ancestor_daughter_scan (s : MCRecoPart) (p r d : Z) :
  daughter_scan (cache_ancestor p r s) d = daughter_scan s d.
Proof.
  unfold daughter_scan, cache_ancestor. simpl.
  pose proof (find_daughter_alter d r (Z.to_nat p) (parts s)) as H.
  destruct (List.find _ (alter _ _ _)), (List.find _ (parts s)); simpl in H; congruence.
Qed.

(** The ancestor cache has no part in what [MotherTrackID] answers. *)
Lemma cache_ancestor_MotherTrackID (s : MCRecoPart) (p r q : Z) :
  MotherTrackID (cache_ancestor p r s) q = MotherTrackID s q.
Proof.
  unfold MotherTrackID. rewrite cache_ancestor_size.
  destruct (size s <=? q); [done |].
  destruct (cache_ancestor_at_ids s p r q) as [Hid Hmother].
  destruct (at_ (cache_ancestor p r s) q) as [a|], (at_ s q) as [b|]; simpl in *;
    try done.
  injection Hid as Hid. injection Hmother as Hmother. rewrite Hid, Hmother.
  destruct (Mother b =? 0); [done |].
  change (TrackToParticleIndex (cache_ancestor p r s) (Mother b))
    with (TrackToParticleIndex s (Mother b)).
  destruct (negb _); [done |].
  pose proof (find_daughter_alter (TrackID b) r (Z.to_nat p) (parts s)) as H.
  unfold cache_ancestor. simpl.
  destruct (List.find _ (alter _ _ _)), (List.find _ (parts s)); simpl in H; congruence.
Qed.

(** Nor in the climb. *)
Lemma cache_ancestor_climb (fuel : nat) (s : MCRecoPart) (p r result mi : Z) :
  climb fuel (cache_ancestor p r s) result mi
  = match climb fuel s result mi with
    | Returns a _ => Returns a (cache_ancestor p r s)
    | Throws e _ => Throws e (cache_ancestor p r s)
    | OutOfFuel => OutOfFuel
    end.
Proof.
  revert result mi. induction fuel as [|fuel IH]; intros result mi; [done |]. simpl.
  rewrite cache_ancestor_MotherTrackID, cache_ancestor_daughter_scan.
  change (TrackToParticleIndex (cache_ancestor p r s)) with (TrackToParticleIndex s).
  destruct (negb (mi =? kINVALID_UINT)).
  - destruct (cache_ancestor_at_ids s p r mi) as [Hid _].
    destruct (at_ (cache_ancestor p r s) mi) as [a|], (at_ s mi) as [b|]; simpl in *;
      try done.
    injection Hid as ->. destruct (MotherTrackID s mi =? TrackID b); [done | apply IH].
  - destruct (daughter_scan s result =? result); [done | apply IH].
Qed.

Lemma cache_ancestor_commute (s : MCRecoPart) (p q rp rq : Z) :
  Z.to_nat p <> Z.to_nat q ->
  cache_ancestor q rq (cache_ancestor p rp s) = cache_ancestor p rp (cache_ancestor q rq s).
Proof.
  intros Hne. unfold cache_ancestor, with_parts. simpl. f_equal.
  by apply list_alter_alter_ne.
Qed.

(** A query at [q] after a cache write at another position [p]. *)
Lemma AncestorTrackID_after_cache (fuel : nat) (s sq : MCRecoPart) (p q rp rq : Z) :
  Z.to_nat p <> Z.to_nat q ->
  AncestorTrackID fuel s q = Returns rq sq ->
  AncestorTrackID fuel (cache_ancestor p rp s) q = Returns rq (cache_ancestor p rp sq).
Proof.
  intros Hne. unfold AncestorTrackID.
  rewrite cache_ancestor_size, cache_ancestor_MotherTrackID, cache_ancestor_climb.
  change (TrackToParticleIndex (cache_ancestor p rp s)) with (TrackToParticleIndex s).
  destruct (size s <=? q); [by intros [= <- <-] |].
  replace (at_ (cache_ancestor p rp s) q) with (at_ s q)
    by (unfold at_, cache_ancestor; simpl; by rewrite list_lookup_alter_ne).
  destruct (at_ s q) as [rec|]; [| done].
  destruct (negb (Ancestor rec =? kINVALID_UINT)); [by intros [= <- <-] |].
  destruct (MotherTrackID s q =? TrackID rec); [by intros [= <- <-] |].
  destruct (MotherTrackID s q =? 0); [by intros [= <- <-] |].
  pose proof (climb_state fuel s (MotherTrackID s q)
                (TrackToParticleIndex s (MotherTrackID s q))) as Hs.
  destruct (climb fuel s _ _) as [a s0| |]; [| done..]. subst s0.
  intros [= <- <-]. by rewrite cache_ancestor_commute.
Qed.

(** A query answered from the cache. *)
Lemma AncestorTrackID_cached (fuel : nat) (s : MCRecoPart) (p : Z) (rec : MCMiniPart) :
  0 <= p -> at_ s p = Some rec -> Ancestor rec <> kINVALID_UINT ->
  AncestorTrackID fuel s p = Returns (Ancestor rec) s.
Proof.
  intros Hp Hat Hset. pose proof (at_in_range s p rec Hp Hat).
  unfold AncestorTrackID. destruct (Z.leb_spec (size s) p); [lia |]. rewrite Hat.
  by destruct (Z.eqb_spec (Ancestor rec) kINVALID_UINT).
Qed.

(** X9: two ancestor queries that both return do not depend on their
    order: asked after the other, each returns the value it returns when
    asked first, and both orders leave the same object. A cache write never
    changes what [MotherTrackID] answers. *)
Theorem AncestorTrackID_order (fuel : nat) (s sp sq : MCRecoPart) (p q rp rq : Z) :
  0 <= p -> 0 <= q ->
  AncestorTrackID fuel s p = Returns rp sp ->
  AncestorTrackID fuel s q = Returns rq sq ->
  (forall x : Z, MotherTrackID sp x = MotherTrackID s x) /\
  exists spq : MCRecoPart,
    AncestorTrackID fuel sp q = Returns rq spq /\
    AncestorTrackID fuel sq p = Returns rp spq.
Proof.
  intros Hp Hq HP HQ.
  assert (Hshape : forall (t : Z) (rt : Z) (st : MCRecoPart),
            AncestorTrackID fuel s t = Returns rt st ->
            st = s \/ st = cache_ancestor t rt s).
  { intros t rt st H. apply AncestorTrackID_Returns in H
      as [(_ & _ & ->) | (rec & _ & _ & [(_ & _ & ->) | [(_ & _ & _ & ->) | (_ & _ & _ & _ & ->)]])];
      auto. }
  split.
  { intros x. destruct (Hshape p rp sp HP) as [-> | ->]; [done |].
    apply cache_ancestor_MotherTrackID. }
  destruct (decide (p = q)) as [<-|Hpq].
  - assert (rq = rp /\ sq = sp) as [-> ->] by (split; congruence).
    exists sp. assert (AncestorTrackID fuel sp p = Returns rp sp) as H; [| done].
    pose proof HP as HP'.
    apply AncestorTrackID_Returns in HP'
      as [(_ & _ & ->) | (rec & Hlt & Hat & [(_ & _ & ->) | [(_ & _ & _ & ->) |
            (Hanc & _ & _ & _ & ->)]])]; try done.
    destruct (decide (rp = kINVALID_UINT)) as [->|Hrp].
    + assert (cache_ancestor p kINVALID_UINT s = s) as E
        by (rewrite <- Hanc; by apply cache_ancestor_same).
      rewrite E in *. exact HP.
    + change rp with (Ancestor (set_Ancestor rp rec)) at 2.
      apply AncestorTrackID_cached; [done | | done].
      by rewrite cache_ancestor_at, Hat.
  - assert (Z.to_nat p <> Z.to_nat q) as Hne by lia.
    destruct (Hshape p rp sp HP) as [-> | ->].
    + exists sq. split; [done |].
      destruct (Hshape q rq sq HQ) as [-> | ->]; [done |].
      apply (AncestorTrackID_after_cache fuel s s q p rq rp); [lia | done].
    + exists (cache_ancestor p rp sq). split; [by apply AncestorTrackID_after_cache |].
      destruct (Hshape q rq sq HQ) as [-> | ->]; [done |].
      rewrite <- (cache_ancestor_commute s p q rp rq) by done.
      apply AncestorTrackID_after_cache; [lia | done].
Qed.

Lemma AncestorTrackID_order_witness :
  exists spq : MCRecoPart,
    AncestorTrackID 4 (cache_ancestor 4 1 chain5) 3 = Returns 1 spq /\
    AncestorTrackID 4 (cache_ancestor 3 1 chain5) 4 = Returns 1 spq.
Proof.
  apply (AncestorTrackID_order 4 chain5 (cache_ancestor 4 1 chain5)
           (cache_ancestor 3 1 chain5) 4 3 1 1); [lia | lia | by vm_compute..].
Defined.

(** ** [MotherTrackID] after an ingestion *)

Lemma ingested_index_sound (s0 s : MCRecoPart) (recs : list MCMiniPart) :
  ingested s0 s (TrackID <$> recs) recs -> index_sound s.
Proof.
  intros (Hparts & _ & Hidx & _) k p Hp. rewrite Hidx in Hp.
  destruct (first_position k (TrackID <$> recs)) as [i|] eqn:Hpos; [| done].
  injection Hp as <-. apply first_position_Some in Hpos as [Hi _].
  apply list_lookup_fmap_Some in Hi as (rec & -> & Hrec).
  exists rec. split; [| done]. unfold at_. by rewrite Nat2Z.id, Hparts.
Qed.

(** With non-negative track ids the keys of an ingestion are the track ids
    of its records. *)
Lemma AddParticles_index_sound (s s' : MCRecoPart) (mcp_v : list simb.MCParticle)
    (orig_v : list simb.Origin_t) (mcmp_v : list MCMiniPart) :
  Forall (fun p => 0 <= simb.TrackId p < 2 ^ 31) mcp_v ->
  AddParticles s mcp_v orig_v mcmp_v = Returns tt s' ->
  index_sound s'.
Proof.
  intros Hnonneg Hcall.
  assert (length orig_v = length mcp_v) as Hlen.
  { unfold AddParticles in Hcall.
    by destruct (Nat.eqb_spec (length orig_v) (length mcp_v)). }
  destruct (AddParticles_ingested s mcp_v orig_v mcmp_v Hlen) as (s0 & E & Hing).
  assert (s0 = s') as -> by congruence.
  set (recs := ((fun mo => mini_of s mo.1 mo.2) <$> combine mcp_v orig_v) ++ mcmp_v) in *.
  apply (ingested_index_sound s s' recs).
  replace (TrackID <$> recs)
    with ((particle_key <$> mcp_v) ++ (TrackID <$> mcmp_v)); [done |].
  unfold recs. rewrite fmap_app, mini_of_TrackIDs by done. f_equal.
  apply Forall_fmap_ext. eapply Forall_impl; [exact Hnonneg |].
  intros p Hp. simpl. unfold particle_key.
  by rewrite index_key_to_size_t.
Qed.

Lemma MotherTrackID_sound_index (s : MCRecoPart) (p : Z) (rec : MCMiniPart) :
  index_sound s -> 0 <= p -> at_ s p = Some rec ->
  (exists q : MCMiniPart, q ∈ parts s /\ TrackID q = MotherTrackID s p) \/
  (MotherTrackID s p = Mother rec /\ Mother rec <> 0 /\
   TrackToParticleIndex s (Mother rec) = kINVALID_UINT /\
   no_record_with_daughter s (TrackID rec)).
Proof.
  intros Hsound Hp Hat. pose proof (at_in_range s p rec Hp Hat) as Hlt.
  unfold MotherTrackID. destruct (Z.leb_spec (size s) p); [lia |]. rewrite Hat.
  destruct (Z.eqb_spec (Mother rec) 0) as [Hprimary|Hmother].
  { left. exists rec. split; [| done]. by eapply list_elem_of_lookup_2. }
  destruct (Z.eqb_spec (TrackToParticleIndex s (Mother rec)) kINVALID_UINT) as [Hinv|Hres];
    simpl.
  - destruct (List.find _ (parts s)) as [q|] eqn:Hfind.
    + left. exists q. split; [| done].
      apply find_some in Hfind as [Hq _]. by apply list_elem_of_In.
    + right. split_and?; try done. unfold no_record_with_daughter.
      by apply (find_none_elem (fun part => HasDaughter part (TrackID rec))).
  - left. unfold TrackToParticleIndex in Hres.
    destruct (_track_index s !! Mother rec) as [pos|] eqn:Hpos; [| done].
    destruct (Hsound _ _ Hpos) as (m & Hm & Hid). exists m. split; [| done].
    by eapply list_elem_of_lookup_2.
Qed.

(** X10: after an ingestion of non-negative track ids, what [MotherTrackID]
    answers at a position of the collection is the track id of an ingested
    record, unless the record's mother id is dangling (non-zero, not in the
    index) and no record lists the particle as a daughter: then it is that
    mother id. *)
Theorem MotherTrackID_after_ingestion (s s' : MCRecoPart) (mcp_v : list simb.MCParticle)
    (orig_v : list simb.Origin_t) (mcmp_v : list MCMiniPart) (p : Z) (rec : MCMiniPart) :
  Forall (fun p => 0 <= simb.TrackId p < 2 ^ 31) mcp_v ->
  AddParticles s mcp_v orig_v mcmp_v = Returns tt s' ->
  0 <= p -> at_ s' p = Some rec ->
  (exists q : MCMiniPart, q ∈ parts s' /\ TrackID q = MotherTrackID s' p) \/
  (MotherTrackID s' p = Mother rec /\ Mother rec <> 0 /\
   TrackToParticleIndex s' (Mother rec) = kINVALID_UINT /\
   no_record_with_daughter s' (TrackID rec)).
Proof.
  intros Hnonneg Hcall Hp Hat.
  apply MotherTrackID_sound_index; [| done..].
  by eapply AddParticles_index_sound.
Qed.

Lemma MotherTrackID_after_ingestion_witness :
  (exists q : MCMiniPart, q ∈ parts chain5_without_3 /\
     TrackID q = MotherTrackID chain5_without_3 2) \/
  (MotherTrackID chain5_without_3 2 = Mother (record_at chain5_without_3 2) /\
   Mother (record_at chain5_without_3 2) <> 0 /\
   TrackToParticleIndex chain5_without_3 (Mother (record_at chain5_without_3 2))
   = kINVALID_UINT /\
   no_record_with_daughter chain5_without_3 (TrackID (record_at chain5_without_3 2))).
Proof.
  apply (MotherTrackID_after_ingestion box10 chain5_without_3
           [example_particle 1 0 [2]; example_particle 2 1 [3];
            example_particle 4 3 [5]; example_particle 5 4 []]
           (repeat simb.kUnknown 4) [] 2 (record_at chain5_without_3 2));
    [by repeat constructor | by vm_compute | lia | by vm_compute].
Defined.

(** ** The stored detector path *)

Lemma inside_points_elem (s : MCRecoPart) (mcp : simb.MCParticle) (i : nat) :
  In i (inside_points s mcp) <->
  (i < simb.NumberTrajectoryPoints mcp)%nat /\ point_inside s mcp i.
Proof.
  unfold inside_points, point_inside. rewrite filter_In, in_seq.
  split; intros [? ?]; (split; [lia | done]).
Qed.

Lemma hd_In (l : list nat) : l <> [] -> In (hd 0%nat l) l.
Proof. destruct l; [done |]. intros _. by left. Qed.

Lemma last_In (l : list nat) : l <> [] -> In (List.last l 0%nat) l.
Proof.
  induction l as [|a l IH]; [done |]. intros _.
  destruct l as [|b l]; [by left |]. right. by apply IH.
Qed.

Lemma det_path_index_Some (s : MCRecoPart) (mcp : simb.MCParticle) (idx : list nat) :
  det_path_index s mcp = Some idx ->
  simb.PdgCode mcp ∈ _pdg_list s /\ inside_points s mcp <> [] /\
  idx = padded (simb.NumberTrajectoryPoints mcp) (inside_points s mcp).
Proof.
  unfold det_path_index. case_bool_decide as Hpdg; [| done].
  rewrite contained_index_inside. intros H.
  assert (inside_points s mcp <> []) as Hne by (intros E; by rewrite E in H).
  destruct (det_path_index_interest s mcp Hpdg) as [_ Hsome].
  destruct (Hsome Hne) as [Hidx _]. unfold det_path_index in Hidx.
  rewrite bool_decide_eq_true_2, contained_index_inside in Hidx by done.
  split_and?; [done.. |]. congruence.
Qed.

(** X11: a stored path is never empty and never reaches outside the
    trajectory; it holds every point that is inside the detector, and each
    of its points is inside or is the neighbour of a point that is; at most
    two points are added to those inside. *)
Theorem det_path_index_sound (s : MCRecoPart) (mcp : simb.MCParticle) (idx : list nat) :
  det_path_index s mcp = Some idx ->
  simb.PdgCode mcp ∈ _pdg_list s /\ idx <> [] /\
  (forall i, In i idx -> (i < simb.NumberTrajectoryPoints mcp)%nat) /\
  (forall i, (i < simb.NumberTrajectoryPoints mcp)%nat -> point_inside s mcp i ->
             In i idx) /\
  (forall i, In i idx ->
     point_inside s mcp i \/ point_inside s mcp (S i) \/
     exists j, i = S j /\ point_inside s mcp j) /\
  (length (inside_points s mcp) <= length idx <= length (inside_points s mcp) + 2)%nat.
Proof.
  intros (Hpdg & Hne & ->)%det_path_index_Some.
  set (sel := inside_points s mcp) in *. set (npoints := simb.NumberTrajectoryPoints mcp).
  pose proof (hd_In sel Hne) as Hhd. pose proof (last_In sel Hne) as Hlast.
  apply inside_points_elem in Hhd as [Hhd_lt Hhd_in].
  apply inside_points_elem in Hlast as [Hlast_lt Hlast_in].
  assert (Hleft : forall i, In i (left_pad sel) ->
            (i < npoints)%nat /\ point_inside s mcp (S i)).
  { intros i. unfold left_pad. destruct (Nat.eqb_spec (hd 0%nat sel) 0); [done |].
    intros [<-|[]]. replace (S (hd 0%nat sel - 1)) with (hd 0%nat sel) by lia.
    split; [fold npoints in Hhd_lt; lia | done]. }
  assert (Hright : forall i, In i (right_pad npoints sel) ->
            (i < npoints)%nat /\ exists j, i = S j /\ point_inside s mcp j).
  { intros i. unfold right_pad.
    destruct (1 <? length (left_pad sel ++ sel))%nat; simpl; [| done].
    destruct (Nat.ltb_spec (List.last sel 0%nat + 1) npoints); [| done].
    intros [<-|[]]. split; [done |]. exists (List.last sel 0%nat). split; [lia | done]. }
  unfold padded. split_and?.
  - done.
  - destruct sel; [done |]. by destruct (left_pad _).
  - intros i [Hi|[Hi|Hi]%in_app_or]%in_app_or.
    + by apply Hleft.
    + by apply inside_points_elem in Hi as [? _].
    + by apply Hright.
  - intros i Hi Hin. apply in_or_app. right. apply in_or_app. left.
    apply inside_points_elem. by split.
  - intros i [Hi|[Hi|Hi]%in_app_or]%in_app_or.
    + right. left. by apply Hleft.
    + left. by apply inside_points_elem in Hi as [_ ?].
    + right. right. by apply Hright.
  - rewrite !length_app. lia.
  - rewrite !length_app. unfold left_pad, right_pad.
    destruct (hd 0%nat sel =? 0)%nat; destruct (_ && _); simpl; lia.
Qed.

Lemma det_path_index_sound_witness :
  (6 < simb.NumberTrajectoryPoints
         (example_track [false; false; false; true; true; true;
                         false; false; false; false]))%nat.
Proof.
  destruct (det_path_index_sound box10
              (example_track [false; false; false; true; true; true;
                              false; false; false; false]) [2; 3; 4; 5; 6]%nat)
    as (_ & _ & Hrange & _); [by vm_compute |].
  apply Hrange. simpl. tauto.
Defined.

(** X12: a record gets no path exactly when its species is not of interest
    or no point of its trajectory is inside the detector. *)
Theorem det_path_absent (s : MCRecoPart) (mcp : simb.MCParticle) (orig : simb.Origin_t) :
  _det_path (mini_of s mcp orig) = None <->
  simb.PdgCode mcp ∉ _pdg_list s \/
  forall i, (i < simb.NumberTrajectoryPoints mcp)%nat -> ~ point_inside s mcp i.
Proof.
  rewrite mini_of_det_path, fmap_None.
  assert (Hsel : inside_points s mcp = [] <->
            forall i, (i < simb.NumberTrajectoryPoints mcp)%nat -> ~ point_inside s mcp i).
  { split.
    - intros E i Hi Hin. assert (In i (inside_points s mcp)) as H
        by (by apply inside_points_elem). by rewrite E in H.
    - intros Hnone. destruct (inside_points s mcp) as [|i l] eqn:E; [done |].
      assert (In i (inside_points s mcp)) as [Hi Hin]%inside_points_elem
        by (rewrite E; by left).
      by destruct (Hnone i Hi). }
  rewrite <- Hsel. unfold det_path_index. rewrite contained_index_inside.
  case_bool_decide as Hpdg.
  - destruct (inside_points s mcp); simpl; split; try done; auto.
    + intros [? | ?]; done.
  - split; auto.
Qed.

(** ** Dropped records come with their cache *)

(** X13: a dropped record is stored as it is given, at the position after
    those of the full batch; when it comes with an ancestor already set, an
    ancestor query at its position returns that value without looking at any
    other record, and changes nothing. *)
Theorem AncestorTrackID_dropped_cache (s : MCRecoPart) (mcp_v : list simb.MCParticle)
    (orig_v : list simb.Origin_t) (mcmp_v : list MCMiniPart)
    (k : nat) (m : MCMiniPart) :
  length orig_v = length mcp_v ->
  mcmp_v !! k = Some m -> Ancestor m <> kINVALID_UINT ->
  exists s' : MCRecoPart,
    AddParticles s mcp_v orig_v mcmp_v = Returns tt s' /\
    parts s' !! (length mcp_v + k)%nat = Some m /\
    forall fuel : nat,
      AncestorTrackID fuel s' (Z.of_nat (length mcp_v + k)) = Returns (Ancestor m) s'.
Proof.
  intros Hlen Hm Hset.
  destruct (AddParticles_ingested s mcp_v orig_v mcmp_v Hlen) as (s' & Hcall & Hparts & _).
  assert (parts s' !! (length mcp_v + k)%nat = Some m) as Hat.
  { rewrite Hparts, lookup_app_r; rewrite length_fmap, length_combine; [| lia].
    replace (length mcp_v + k - length mcp_v `min` length orig_v)%nat with k by lia.
    done. }
  exists s'. split; [done |]. split; [done |]. intros fuel.
  apply AncestorTrackID_cached; [lia | | done].
  unfold at_. by rewrite Nat2Z.id.
Qed.

Lemma AncestorTrackID_dropped_cache_witness :
  exists s' : MCRecoPart,
    AddParticles box10 [example_particle 1 0 []] [simb.kUnknown]
      [set_Ancestor 42 (example_dropped 7 1 [])] = Returns tt s' /\
    AncestorTrackID 0 s' 1 = Returns 42 s'.
Proof.
  destruct (AncestorTrackID_dropped_cache box10 [example_particle 1 0 []] [simb.kUnknown]
              [set_Ancestor 42 (example_dropped 7 1 [])] 0
              (set_Ancestor 42 (example_dropped 7 1 [])))
    as (s' & Hcall & _ & Hquery); [done | done | by vm_compute |].
  exists s'. split; [exact Hcall | exact (Hquery 0%nat)].
Defined.

(** ** Mothers without a primary *)

Lemma climb_mother_closed (s : MCRecoPart) (C : Z -> Prop) (fuel : nat) :
  mother_closed s C ->
  forall (p : Z) (rec : MCMiniPart), C p -> indexed_record s p rec ->
    climb fuel s (TrackID rec) p = OutOfFuel.
Proof.
  intros Hclosed. induction fuel as [|fuel IH]; intros p rec Hp Hrec; [done |].
  destruct (Hclosed p Hp) as (rec' & rm & pm & Hrec' & Hrm & Hmother & Hne & Hpm).
  assert (rec' = rec) as ->.
  { destruct Hrec' as (_ & _ & Ha & _), Hrec as (_ & _ & Hb & _). congruence. }
  pose proof (MotherTrackID_indexed s p pm rec rm Hrec Hrm Hmother) as Hm.
  rewrite (climb_up _ s p rec Hrec); rewrite Hm; [| done].
  replace (TrackToParticleIndex s (TrackID rm)) with pm
    by (by destruct Hrm as (_ & _ & _ & _ & ->)).
  by apply IH.
Qed.

(** X14: the loop has no guard against mothers that never lead to a
    primary: on a set of indexed records closed under "mother of" (a cycle
    of mother ids, for one), the first ancestor query at any of them does not
    return, however many turns are allowed. *)
Theorem AncestorTrackID_mother_closed (s : MCRecoPart) (C : Z -> Prop) (fuel : nat)
    (p : Z) (rec : MCMiniPart) :
  mother_closed s C -> C p ->
  at_ s p = Some rec -> Ancestor rec = kINVALID_UINT ->
  AncestorTrackID fuel s p = OutOfFuel.
Proof.
  intros Hclosed Hp Hat Hanc.
  destruct (Hclosed p Hp) as (rec' & rm & pm & Hrec & Hrm & Hmother & Hne & Hpm).
  assert (rec' = rec) as -> by (destruct Hrec as (_ & _ & Ha & _); congruence).
  pose proof (MotherTrackID_indexed s p pm rec rm Hrec Hrm Hmother) as Hm.
  destruct (indexed_record_in_range s p rec Hrec) as [H0 Hlt].
  unfold AncestorTrackID. destruct (Z.leb_spec (size s) p); [lia |].
  rewrite Hat, Hanc, Z.eqb_refl, Hm. simpl.
  destruct (Z.eqb_spec (TrackID rm) (TrackID rec)); [done |].
  destruct (Z.eqb_spec (TrackID rm) 0) as [Hz|_].
  { by destruct Hrm as (_ & _ & _ & ? & _). }
  replace (TrackToParticleIndex s (TrackID rm)) with pm
    by (by destruct Hrm as (_ & _ & _ & _ & ->)).
  by rewrite (climb_mother_closed s C fuel Hclosed pm rm Hpm Hrm).
Qed.

Lemma mother_cycle_closed : mother_closed mother_cycle (fun p => p = 0 \/ p = 1 \/ p = 2).
Proof.
  assert (forall i : nat, (i < 3)%nat ->
            indexed_record mother_cycle (Z.of_nat i) (record_at mother_cycle i)) as Hrec.
  { intros i Hi. destruct i as [|[|[|i]]]; try lia;
      unfold indexed_record; split_and?; by vm_compute. }
  intros p [-> | [-> | ->]].
  - exists (record_at mother_cycle 0), (record_at mother_cycle 1), 1.
    split_and?; [apply (Hrec 0%nat); lia | apply (Hrec 1%nat); lia | by vm_compute..
                | by right; left].
  - exists (record_at mother_cycle 1), (record_at mother_cycle 0), 0.
    split_and?; [apply (Hrec 1%nat); lia | apply (Hrec 0%nat); lia | by vm_compute..
                | by left].
  - exists (record_at mother_cycle 2), (record_at mother_cycle 1), 1.
    split_and?; [apply (Hrec 2%nat); lia | apply (Hrec 1%nat); lia | by vm_compute..
                | by right; left].
Qed.

Lemma AncestorTrackID_mother_closed_witness :
  AncestorTrackID 1000 mother_cycle 2 = OutOfFuel.
Proof.
  apply (AncestorTrackID_mother_closed mother_cycle (fun p => p = 0 \/ p = 1 \/ p = 2)
           1000 2 (record_at mother_cycle 2) mother_cycle_closed);
    [by right; right | by vm_compute..].
Defined.
